(** * epg_playlist_matcher.js: channel-name reconciliation

    A shallow embedding of the two scripts of [epg_playlist_matcher.js]
    (the fuzzy matcher, and the manual-override pass) together with the
    properties stated for them.

    Conventions of the embedding.
    - A JavaScript string is its sequence of UTF-16 code units, [list N].
    - A JavaScript array is a [list]; [a[i] = v] is [array_set], which
      overwrites inside the array and extends it at its end.
    - Similarity scores are IEEE doubles in the source.  Every score the
      program computes is the literal 1.0, the literal 0.8, or a quotient
      [(L - d) / L] of two small integers, and the only operations on scores
      are comparisons.  They are modelled as exact rationals [Q]; since
      correctly rounded division is monotone and exact on equal quotients,
      the comparisons agree with the doubles for all names shorter than
      2^26 code units.  Numeric equality of scores is [Qeq].
    - The own properties of the object [manualMappings] are a [gmap]; a
      property access on it, [Override.member], also finds the members it
      inherits from [Object.prototype]. *)

From Stdlib Require Import String Ascii QArith Lqa Sorted.
From stdpp Require Import gmap list.

Local Open Scope N_scope.

(** ** JavaScript strings *)

Module JS.

(** The code units of an ASCII literal. *)
Definition lit (s : string) : list N :=
  map N_of_ascii (list_ascii_of_string s).

(** [c] lies in the inclusive range [lo..hi]. *)
Definition between (lo hi c : N) : bool := (lo <=? c) && (c <=? hi).

(** ECMAScript LineTerminator: LF, CR, LS, PS. *)
Definition isLineTerminator (c : N) : bool :=
  (c =? 10) || (c =? 13) || (c =? 8232) || (c =? 8233).

(** ECMAScript WhiteSpace and LineTerminator, the class of [\s] and of
    [String.prototype.trim]. *)
Definition isSpace (c : N) : bool :=
  between 9 13 c || (c =? 32) || (c =? 160) || (c =? 5760)
  || between 8192 8202 c || (c =? 8232) || (c =? 8233) || (c =? 8239)
  || (c =? 8287) || (c =? 12288) || (c =? 65279).

(** The suffix of [s] that starts at its first code unit outside [p]. *)
Fixpoint dropWhile (p : N -> bool) (s : list N) : list N :=
  match s with
  | [] => []
  | c :: s' => if p c then dropWhile p s' else s
  end.

(** [s.trim()] *)
Definition trimStart (s : list N) : list N := dropWhile isSpace s.
Definition trimEnd (s : list N) : list N := rev (dropWhile isSpace (rev s)).
Definition trim (s : list N) : list N := trimEnd (trimStart s).

(** [s.startsWith(p)] *)
Fixpoint startsWith (s p : list N) {struct p} : bool :=
  match p with
  | [] => true
  | x :: p' =>
      match s with
      | [] => false
      | y :: s' => (x =? y) && startsWith s' p'
      end
  end.

(** [s.includes(sub)]: [sub] occurs at some position of [s]. *)
Fixpoint includes (s sub : list N) : bool :=
  startsWith s sub ||
  match s with
  | [] => false
  | _ :: s' => includes s' sub
  end.

(** [sub] occurs in [s] as a contiguous substring. *)
Definition substringOf (sub s : list N) : Prop :=
  exists pre post, s = pre ++ sub ++ post.

(** [s1 === s2] on strings. *)
Definition strEq (s1 s2 : list N) : bool := bool_decide (s1 = s2).

(** Truthiness of a string: non-empty. *)
Definition truthy (s : list N) : bool :=
  match s with [] => false | _ :: _ => true end.

(** [s.charAt(i)]: a string of one code unit, or the empty string. *)
Definition charAt (s : list N) (i : nat) : list N :=
  match s !! i with Some c => [c] | None => [] end.

(** Splitting at every line feed, as [split] does. *)
Fixpoint splitLines (s : list N) : list (list N) :=
  match s with
  | [] => [[]]
  | c :: s' =>
      if c =? 10 then [] :: splitLines s'
      else match splitLines s' with
           | l :: ls => (c :: l) :: ls
           | [] => [[c]]
           end
  end.

(** [a || b] where [a] is a string or [undefined] and [b] a string. *)
Definition orElse (a : option (list N)) (b : list N) : list N :=
  match a with
  | Some s => if truthy s then s else b
  | None => b
  end.

(** The double quote and the line feed. *)
Definition dq : N := 34.
Definition nl : N := 10.

(** The text made of the lines [ls], each ended by a line feed. *)
Definition unlines (ls : list (list N)) : list N :=
  concat ((fun l => l ++ [nl]) <$> ls).

(** [a[i] = v] on an array: overwrite in range, extend at the end; a write
    further out leaves holes, filled here with [hole]. *)
Definition array_set {A} (hole : A) (a : list A) (i : nat) (v : A) : list A :=
  if decide (i < length a)%nat then <[i := v]> a
  else a ++ replicate (i - length a) hole ++ [v].

End JS.
Import JS.

(** ** Script 1: the fuzzy matcher *)

Module Matcher.

(** *** Normalisation: lower-casing, then deleting what is not in [a-z0-9] *)

(** The lower-case mapping of one code unit.  Only the code units whose
    Unicode lower-case mapping contains a character of [a-z0-9] matter,
    because every other character is deleted by the [replace] that
    follows: these are A-Z, U+0130 (i followed by U+0307) and U+212A
    (the Kelvin sign, k).  Other code units are left as they are. *)
Definition lowerUnit (c : N) : list N :=
  if between 65 90 c then [c + 32]
  else if c =? 304 then [105; 775]
  else if c =? 8490 then [107]
  else [c].

Definition toLowerCase (s : list N) : list N := flat_map lowerUnit s.

(** The class [[a-z0-9]]. *)
Definition isAlnum (c : N) : bool := between 97 122 c || between 48 57 c.

Definition normalize (s : list N) : list N :=
  List.filter isAlnum (toLowerCase s).

(** *** levenshteinDistance *)

(** The matrix is an array of rows. *)
Abbreviation Matrix := (list (list nat)).

(** [matrix[i][j]] *)
Definition mget (m : Matrix) (i j : nat) : nat := (m !!! i) !!! j.

(** [matrix[i][j] = v] *)
Definition mset (m : Matrix) (i j v : nat) : Matrix :=
  array_set [] m i (array_set 0%nat (m !!! i) j v).

Definition min3 (a b c : nat) : nat := Nat.min a (Nat.min b c).

Section Levenshtein.
Variables str1 str2 : list N.

(** [for (let i = 0; i <= str2.length; i++) matrix[i] = [i];] *)
Definition initRows : Matrix :=
  fold_left (fun m i => array_set [] m i [i]) (seq 0 (S (length str2))) [].

(** [for (let j = 0; j <= str1.length; j++) matrix[0][j] = j;] *)
Definition initCols (m : Matrix) : Matrix :=
  fold_left (fun m j => mset m 0 j j) (seq 0 (S (length str1))) m.

(** The value stored into [matrix[i][j]] by the body of the inner loop. *)
Definition cell (m : Matrix) (i j : nat) : nat :=
  if strEq (charAt str2 (i - 1)) (charAt str1 (j - 1))
  then mget m (i - 1) (j - 1)
  else min3 (mget m (i - 1) (j - 1) + 1)
            (mget m i (j - 1) + 1)
            (mget m (i - 1) j + 1).

Definition fillRow (m : Matrix) (i : nat) : Matrix :=
  fold_left (fun m j => mset m i j (cell m i j)) (seq 1 (length str1)) m.

Definition fill (m : Matrix) : Matrix :=
  fold_left fillRow (seq 1 (length str2)) m.

Definition levenshteinDistance : nat :=
  mget (fill (initCols initRows)) (length str2) (length str1).
End Levenshtein.

(** *** fuzzyMatch *)

Local Open Scope Q_scope.

(** [(longer.length - editDistance) / longer.length] *)
Definition ratio (len dist : nat) : Q :=
  (inject_Z (Z.of_nat len) - inject_Z (Z.of_nat dist)) / inject_Z (Z.of_nat len).

(** [s1.length > s2.length ? s1 : s2] and [s1.length > s2.length ? s2 : s1] *)
Definition longerOf (s1 s2 : list N) : list N :=
  if (length s2 <? length s1)%nat then s1 else s2.
Definition shorterOf (s1 s2 : list N) : list N :=
  if (length s2 <? length s1)%nat then s2 else s1.

Definition fuzzyMatch (str1 str2 : list N) : Q :=
  let s1 := normalize str1 in
  let s2 := normalize str2 in
  if strEq s1 s2 then 1
  else if includes s1 s2 || includes s2 s1 then 8 # 10
  else
    let longer := longerOf s1 s2 in
    let shorter := shorterOf s1 s2 in
    if (length longer =? 0)%nat then 1
    else
      let editDistance := levenshteinDistance longer shorter in
      ratio (length longer) editDistance.

(** The edit distance between the first [i] code units of [str2] and the
    first [j] code units of [str1], by the recurrence of the inner loop;
    the matrix of [levenshteinDistance] is shown to tabulate it. *)
Section Dist.
Variables str1 str2 : list N.

Fixpoint dist (i : nat) : nat -> nat :=
  match i with
  | O => fun j => j
  | S i' =>
      fix row (j : nat) : nat :=
        match j with
        | O => S i'
        | S j' =>
            if strEq (charAt str2 i') (charAt str1 j')
            then dist i' j'
            else min3 (dist i' j' + 1) (row j' + 1) (dist i' (S j') + 1)
        end
  end.

(** The first [k] cells of row [r], and the matrix whose row [r] is
    filled up to width [w r]. *)
Definition rowOf (r k : nat) : list nat := dist r <$> seq 0 k.
Definition matOf (w : nat -> nat) : Matrix :=
  (fun r => rowOf r (w r)) <$> seq 0 (S (length str2)).

(** The widths [w] with row [r] set to [k], and the widths when the
    rows [0..i-1] are complete and the others hold their first cell. *)
Definition widen (w : nat -> nat) (r k : nat) : nat -> nat :=
  fun r' => if decide (r' = r) then k else w r'.
Definition rowsDone (i : nat) : nat -> nat :=
  fun r => if decide (r < i)%nat then S (length str1) else 1%nat.
End Dist.

(** *** matchChannels *)

Record PlaylistChannel := mkPlaylistChannel {
  name : list N;
  tvgId : list N;
  streamUrl : list N
}.

Record EpgChannel := mkEpgChannel {
  id : list N;
  displayName : list N
}.

Record MatchResult := mkMatchResult {
  playlistName : list N;
  playlistTvgId : list N;
  epgId : list N;
  epgName : list N;
  score : Q;
  matchStreamUrl : list N   (* field [streamUrl] of a match *)
}.

(** [a > b] on numbers. *)
Definition gt (a b : Q) : bool := negb (Qle_bool a b).

(** The body of [epgChannels.forEach]; the state is [(bestMatch, bestScore)]. *)
Definition consider (pChannel : PlaylistChannel)
    (st : option EpgChannel * Q) (eChannel : EpgChannel) : option EpgChannel * Q :=
  let '(bestMatch, bestScore) := st in
  let score := fuzzyMatch (name pChannel) (displayName eChannel) in
  if gt score bestScore && gt score (6 # 10) then (Some eChannel, score)
  else (bestMatch, bestScore).

Definition findBest (pChannel : PlaylistChannel) (epgChannels : list EpgChannel)
    : option EpgChannel * Q :=
  fold_left (consider pChannel) epgChannels (None, 0).

Definition toMatch (pChannel : PlaylistChannel) (bestMatch : EpgChannel)
    (bestScore : Q) : MatchResult :=
  {| playlistName := name pChannel;
     playlistTvgId := tvgId pChannel;
     epgId := id bestMatch;
     epgName := displayName bestMatch;
     score := bestScore;
     matchStreamUrl := streamUrl pChannel |}.

(** The body of [playlistChannels.forEach]; the state is
    [(matches, unmatched)]. *)
Definition matchStep (epgChannels : list EpgChannel)
    (acc : list MatchResult * list PlaylistChannel) (pChannel : PlaylistChannel)
    : list MatchResult * list PlaylistChannel :=
  let '(matches, unmatched) := acc in
  match findBest pChannel epgChannels with
  | (Some bestMatch, bestScore) =>
      (matches ++ [toMatch pChannel bestMatch bestScore], unmatched)
  | (None, _) => (matches, unmatched ++ [pChannel])
  end.

Definition matchChannels (playlistChannels : list PlaylistChannel)
    (epgChannels : list EpgChannel) : list MatchResult * list PlaylistChannel :=
  fold_left (matchStep epgChannels) playlistChannels ([], []).

(** What the inner loop has found after the candidates [es]: a first
    candidate whose score is above the threshold and maximal, or nothing
    when no score is above the threshold. *)
Definition bestOf (p : PlaylistChannel) (es : list EpgChannel)
    (st : option EpgChannel * Q) : Prop :=
  match st with
  | (Some e, s) =>
      6 # 10 < s
      /\ s = fuzzyMatch (name p) (displayName e)
      /\ exists pre post,
           es = pre ++ e :: post
           /\ (forall e', e' ∈ pre -> fuzzyMatch (name p) (displayName e') < s)
           /\ (forall e', e' ∈ post -> fuzzyMatch (name p) (displayName e') <= s)
  | (None, s) =>
      s = 0
      /\ forall e', e' ∈ es -> ~ 6 # 10 < fuzzyMatch (name p) (displayName e')
  end.

(** Whether the inner loop finds a match for [p], and the match it adds. *)
Definition matched (es : list EpgChannel) (p : PlaylistChannel) : bool :=
  match findBest p es with (Some _, _) => true | (None, _) => false end.

Definition matchFor (es : list EpgChannel) (p : PlaylistChannel)
    : option MatchResult :=
  match findBest p es with
  | (Some e, s) => Some (toMatch p e s)
  | (None, _) => None
  end.

(** The playlist channel a match was made from. *)
Definition sourceChannel (m : MatchResult) : PlaylistChannel :=
  mkPlaylistChannel (playlistName m) (playlistTvgId m) (matchStreamUrl m).

Local Close Scope Q_scope.

(** *** parseM3U *)

(** Any text without a double quote, then a double quote, at the start of
    [s]: the text before its first double quote. *)
Fixpoint untilQuote (s : list N) : option (list N) :=
  match s with
  | [] => None
  | c :: s' => if c =? dq then Some [] else cons c <$> untilQuote s'
  end.

(** The rest of [s] after the literal [p], when [s] starts with it. *)
Fixpoint afterPrefix (p s : list N) {struct p} : option (list N) :=
  match p with
  | [] => Some s
  | x :: p' =>
      match s with
      | [] => None
      | y :: s' => if x =? y then afterPrefix p' s' else None
      end
  end.

(** Group 1 of the match of the pattern for the [tvg-id] attribute (the
    literal [tvg-id=], a double quote, any text without a double quote, a
    double quote) at the leftmost position where it matches. *)
Fixpoint matchTvgId (s : list N) : option (list N) :=
  match afterPrefix (lit "tvg-id=" ++ [dq]) s ≫= untilQuote with
  | Some g => Some g
  | None => match s with
            | [] => None
            | _ :: s' => matchTvgId s'
            end
  end.

(** Group 1 of the match of the pattern for the display name (a comma,
    any text without line terminator, the end of the input): the text after
    the leftmost comma that has no line terminator between it and the end
    of the line. *)
Fixpoint matchName (s : list N) : option (list N) :=
  match s with
  | [] => None
  | c :: s' =>
      if (c =? 44) && forallb (fun x => negb (isLineTerminator x)) s'
      then Some s'
      else matchName s'
  end.

Definition EXTINF : list N := lit "#EXTINF:".

(** The fields extracted from a trimmed directive line. *)
Definition tvgIdOf (line : list N) : list N :=
  match matchTvgId line with Some g => g | None => [] end.
Definition nameOf (line : list N) : list N :=
  match matchName line with Some g => trim g | None => [] end.
(** [lines[i + 1]?.trim()], or the empty string when that is falsy. *)
Definition urlAt (lines : list (list N)) (i : nat) : list N :=
  orElse (trim <$> lines !! (i + 1)%nat) [].

(** The body of the [for] loop at index [i]. *)
Definition parseStep (lines : list (list N))
    (channels : list PlaylistChannel) (i : nat) : list PlaylistChannel :=
  let line := trim (lines !!! i) in
  if startsWith line EXTINF then
    let tvgId := tvgIdOf line in
    let name := nameOf line in
    let streamUrl := urlAt lines i in
    if truthy name && truthy streamUrl
    then channels ++ [mkPlaylistChannel name tvgId streamUrl]
    else channels
  else channels.

Definition parseM3U (content : list N) : list PlaylistChannel :=
  let lines := splitLines content in
  fold_left (parseStep lines) (seq 0 (length lines)) [].

(** Whether the line at index [i] yields a channel, and the channel it
    yields; [parseM3U] is shown to collect exactly these. *)
Definition qualifies (lines : list (list N)) (i : nat) : bool :=
  let line := trim (lines !!! i) in
  startsWith line EXTINF && (truthy (nameOf line) && truthy (urlAt lines i)).
Definition recordAt (lines : list (list N)) (i : nat) : PlaylistChannel :=
  let line := trim (lines !!! i) in
  mkPlaylistChannel (nameOf line) (tvgIdOf line) (urlAt lines i).

(** *** generateCorrectedM3U *)

Definition header : list N :=
  lit "#EXTM3U url-tvg=" ++ [dq] ++ lit "fr_epg.xml" ++ [dq].

(** The directive line with a [tvg-id] attribute, and the one without. *)
Definition extinfWithId (id name : list N) : list N :=
  lit "#EXTINF:-1 tvg-id=" ++ [dq] ++ id ++ [dq] ++ lit "," ++ name.
Definition extinfPlain (name : list N) : list N :=
  lit "#EXTINF:-1," ++ name.

Definition generateCorrectedM3U (matches : list MatchResult)
    (unmatched : list PlaylistChannel) : list N :=
  let m3u := header ++ [nl] in
  let m3u :=
    fold_left (fun m3u mt =>
                 (m3u ++ (extinfWithId (epgId mt) (playlistName mt) ++ [nl]))
                 ++ (matchStreamUrl mt ++ [nl])) matches m3u in
  let m3u :=
    fold_left (fun m3u channel =>
                 (m3u ++ (extinfPlain (name channel) ++ [nl]))
                 ++ (streamUrl channel ++ [nl])) unmatched m3u in
  m3u.

(** The two lines of a matched channel and of an unmatched one. *)
Definition matchLines (m : MatchResult) : list (list N) :=
  [extinfWithId (epgId m) (playlistName m); matchStreamUrl m].
Definition channelLines (c : PlaylistChannel) : list (list N) :=
  [extinfPlain (name c); streamUrl c].

End Matcher.

(** ** Script 2: manual mappings *)

Module Override.

(** Manual high-quality mappings for major French channels: the
    properties of the object literal, in order. *)
Definition manualMappingsEntries : list (list N * list N) :=
  [
    (lit "TF1", lit "TF1.fr");
    (lit "TF1 HD", lit "TF1.fr");
    (lit "France 2", lit "France2.fr");
    (lit "France 2 HD", lit "France2.fr");
    (lit "France 3", lit "France3.fr");
    (lit "France 3 HD", lit "France3.fr");
    (lit "France 4", lit "France4.fr");
    (lit "France 4 HD", lit "France4.fr");
    (lit "France 5", lit "France5.fr");
    (lit "France 5 HD", lit "France5.fr");
    (lit "M6", lit "M6.fr");
    (lit "Arte", lit "Arte.fr");
    (lit "BFM TV", lit "BFMTV.fr");
    (lit "BFMTV", lit "BFMTV.fr");
    (lit "CNews", lit "CNews.fr");
    (lit "CNEWS", lit "CNews.fr");
    (lit "LCI", lit "LCI.fr");
    (lit "RMC Story", lit "RMCStory.fr");
    (lit "RMC D" ++ [233] ++ lit "couverte", lit "RMCDecouverte.fr");
    (lit "W9", lit "W9.fr");
    (lit "TMC", lit "TMC.fr");
    (lit "NT1", lit "NT1.fr");
    (lit "NRJ 12", lit "NRJ12.fr");
    (lit "Canal+", lit "CanalPlus.fr");
    (lit "Canal+ France", lit "CanalPlus.fr");
    (lit "Euronews", lit "EuronewsFrench.fr");
    (lit "France 24", lit "France24.fr");
    (lit "France 24 French", lit "France24.fr");
    (lit "TV5Monde", lit "TV5MondeFranceBelgiqueSuisseMonaco.fr");
    (lit "Gulli", lit "Gulli.fr");
    (lit "L'Equipe", lit "LEquipe.fr");
    (lit "Cherie 25", lit "Cherie25.fr");
    (lit "Ch" ++ [233] ++ lit "rie 25", lit "Cherie25.fr");
    (lit "6ter", lit "6ter.fr")
  ].

Definition manualMappings : gmap (list N) (list N) :=
  list_to_map manualMappingsEntries.

(** The names of the members that every object inherits from
    [Object.prototype]. *)
Definition objectPrototypeKeys : list (list N) :=
  [ lit "constructor"; lit "__defineGetter__"; lit "__defineSetter__";
    lit "hasOwnProperty"; lit "__lookupGetter__"; lit "__lookupSetter__";
    lit "isPrototypeOf"; lit "propertyIsEnumerable"; lit "toString";
    lit "valueOf"; lit "__proto__"; lit "toLocaleString" ].

(** What a property access on [manualMappings] can give, and so what
    [tvgId] can hold: a string, or the inherited member of that name (a
    built-in function; for [__proto__] the prototype object). *)
Inductive TvgId :=
| IdText (s : list N)
| IdInherited (key : list N).

(** [manualMappings[key]]: the own property, else the inherited member,
    else [undefined]. *)
Definition member (table : gmap (list N) (list N)) (key : list N)
    : option TvgId :=
  match table !! key with
  | Some v => Some (IdText v)
  | None =>
      if bool_decide (key ∈ objectPrototypeKeys) then Some (IdInherited key)
      else None
  end.

(** Truthiness: a non-empty string, any function or object. *)
Definition truthyId (v : TvgId) : bool :=
  match v with
  | IdText s => truthy s
  | IdInherited _ => true
  end.

(** [a || b] where [a] is a value or [undefined]. *)
Definition orElseId (a : option TvgId) (b : TvgId) : TvgId :=
  match a with
  | Some v => if truthyId v then v else b
  | None => b
  end.

(** The text of a value inside a template literal: the string itself;
    for a built-in function the text that V8 gives, with the name of the
    function ([Object] for [constructor]); for the prototype object the
    text of [Object.prototype.toString]. *)
Definition idText (v : TvgId) : list N :=
  match v with
  | IdText s => s
  | IdInherited key =>
      if strEq key (lit "__proto__") then lit "[object Object]"
      else lit "function "
           ++ (if strEq key (lit "constructor") then lit "Object" else key)
           ++ lit "() { [native code] }"
  end.

Record MappedChannel := mkMappedChannel {
  originalName : list N;
  cleanName : list N;
  tvgId : TvgId;
  streamUrl : list N;
  hasTvgId : bool
}.

(** *** Cleaning the channel name *)

(** The position of the first [c] in [s]. *)
Fixpoint indexOf (c : N) (s : list N) : option nat :=
  match s with
  | [] => None
  | x :: s' => if x =? c then Some O else S <$> indexOf c s'
  end.

(** The length of the match, at the start of [s], of the annotation
    pattern: any white space, the opening character, any text without the
    closing character, the closing character.  The white space and the
    text are matched greedily, so the match takes all the white space at
    the start and ends at the first closing character. *)
Definition matchAnnot (opening closing : N) (s : list N) : option nat :=
  match dropWhile isSpace s with
  | c :: rest =>
      if c =? opening
      then (fun n => length s - length rest + n + 1)%nat <$> indexOf closing rest
      else None
  | [] => None
  end.

(** Replacing every match of that pattern by the empty string: scanning from the left, a match is
    deleted and the scan resumes after it ([skip] code units of the
    current match remain); where there is no match the code unit is kept. *)
Fixpoint replaceFrom (opening closing : N) (skip : nat) (s : list N) : list N :=
  match s with
  | [] => []
  | c :: s' =>
      match skip with
      | S k => replaceFrom opening closing k s'
      | O =>
          match matchAnnot opening closing s with
          | Some n => replaceFrom opening closing (n - 1) s'
          | None => c :: replaceFrom opening closing 0 s'
          end
      end
  end.

Definition removeAnnot (opening closing : N) (s : list N) : list N :=
  replaceFrom opening closing 0 s.

Definition clean (name : list N) : list N :=
  trim (removeAnnot 91 93 (removeAnnot 40 41 name)).

(** No [opening] in [s] is followed, anywhere later, by a [closing]: [s]
    holds no text enclosed by the two. *)
Definition noPair (opening closing : N) (s : list N) : Prop :=
  forall pre post, s = pre ++ opening :: post -> closing ∉ post.

(** *** parseM3U (with manual mappings) *)

(** [manualMappings[cleanName] || manualMappings[name]], or the empty
    string when both are falsy. *)
Definition resolve (table : gmap (list N) (list N)) (cleanName name : list N)
    : TvgId :=
  orElseId (member table cleanName) (orElseId (member table name) (IdText [])).

Definition parseStep (lines : list (list N))
    (channels : list MappedChannel) (i : nat) : list MappedChannel :=
  let line := trim (lines !!! i) in
  if startsWith line Matcher.EXTINF then
    let name := Matcher.nameOf line in
    let streamUrl := Matcher.urlAt lines i in
    if truthy name && truthy streamUrl then
      let cleanName := clean name in
      let tvgId := resolve manualMappings cleanName name in
      channels
      ++ [mkMappedChannel name cleanName tvgId streamUrl (truthyId tvgId)]
    else channels
  else channels.

Definition parseM3U (content : list N) : list MappedChannel :=
  let lines := splitLines content in
  fold_left (parseStep lines) (seq 0 (length lines)) [].

(** *** generateCleanM3U *)

Definition entryWithId (channel : MappedChannel) : list N :=
  (Matcher.extinfWithId (idText (tvgId channel)) (originalName channel)
   ++ [nl])
  ++ (streamUrl channel ++ [nl]).

Definition entryPlain (channel : MappedChannel) : list N :=
  (Matcher.extinfPlain (originalName channel) ++ [nl])
  ++ (streamUrl channel ++ [nl]).

(** The result [{ m3u, goodChannels, unknownChannels }] as a triple. *)
Definition generateCleanM3U (channels : list MappedChannel)
    : list N * list MappedChannel * list MappedChannel :=
  let goodChannels := List.filter hasTvgId channels in
  let unknownChannels := List.filter (fun ch => negb (hasTvgId ch)) channels in
  let m3u := Matcher.header ++ [nl; nl] in
  let m3u := m3u ++ (lit "# CHANNELS WITH EPG" ++ [nl]) in
  let m3u := fold_left (fun m3u channel => m3u ++ entryWithId channel)
               goodChannels m3u in
  let m3u := m3u ++ ([nl] ++ lit "# CHANNELS WITHOUT EPG" ++ [nl]) in
  let m3u := fold_left (fun m3u channel => m3u ++ entryPlain channel)
               (take 10 unknownChannels) m3u in
  (m3u, goodChannels, unknownChannels).

(** The record pushed for a display name and a stream URL. *)
Definition mapped (name streamUrl : list N) : MappedChannel :=
  let cleanName := clean name in
  let tvgId := resolve manualMappings cleanName name in
  mkMappedChannel name cleanName tvgId streamUrl (truthyId tvgId).

(** The two lines of a resolved channel and of an unresolved one. *)
Definition linesWithId (c : MappedChannel) : list (list N) :=
  [Matcher.extinfWithId (idText (tvgId c)) (originalName c); streamUrl c].
Definition linesPlain (c : MappedChannel) : list (list N) :=
  [Matcher.extinfPlain (originalName c); streamUrl c].

End Override.

(** ** Sample inputs *)

Module Samples.
Import Matcher.

(** The pair of the boundary example. *)
Definition arteHD : PlaylistChannel :=
  mkPlaylistChannel (lit "Arte HD") [] (lit "http://example/arte").

Definition arteFR : EpgChannel := mkEpgChannel (lit "Arte.fr") (lit "ArteFR").

(** The channels of the end-to-end scenario. *)
Definition tf1 : PlaylistChannel :=
  mkPlaylistChannel (lit "TF1") [] (lit "http://example/tf1").

Definition unknownX : PlaylistChannel :=
  mkPlaylistChannel (lit "Unknown Channel X") [] (lit "http://example/x").

Definition tf1Epg : EpgChannel := mkEpgChannel (lit "TF1.fr") (lit "TF1").

(** Two directives in a row, then a location. *)
Definition twoDirectives : list N :=
  lit "#EXTINF:-1,A" ++ [nl] ++ lit "#EXTINF:-1,B" ++ [nl] ++ lit "http://b".

(** The end-to-end scenario: [TF1] and [Unknown Channel X]. *)
Definition scenario : list N :=
  lit "#EXTM3U" ++ [nl] ++ lit "#EXTINF:-1,TF1" ++ [nl]
  ++ lit "http://example/tf1" ++ [nl] ++ lit "#EXTINF:-1,Unknown Channel X"
  ++ [nl] ++ lit "http://example/x" ++ [nl].

(** A playlist with a header line; an entry with a [tvg-id] attribute,
    two commas, white space around its lines and a carriage return; an
    entry whose name is blank; a directive without a comma; an entry whose
    next line is blank; a plain entry; and a last directive with no line
    after it. *)
Definition mixedPlaylist : list N :=
  lit "#EXTM3U" ++ [nl]
  ++ lit "  #EXTINF:-1 tvg-id=" ++ [dq] ++ lit "France2.fr" ++ [dq]
  ++ lit " group=a,b, France 2 " ++ [13; nl]
  ++ lit " http://example/f2 " ++ [nl]
  ++ lit "#EXTINF:-1,  " ++ [nl]
  ++ lit "http://example/noname" ++ [nl]
  ++ lit "#EXTINF:-1 no comma" ++ [nl]
  ++ lit "http://example/nocomma" ++ [nl]
  ++ lit "#EXTINF:-1,Blank next" ++ [nl]
  ++ lit "   " ++ [nl]
  ++ lit "#EXTINF:-1,Arte" ++ [nl]
  ++ lit "http://example/arte" ++ [nl]
  ++ lit "#EXTINF:-1,Last".

(** A playlist whose one channel has the name of a member that every
    object inherits from [Object.prototype]. *)
Definition constructorEntry : list N :=
  lit "#EXTINF:-1,constructor" ++ [nl] ++ lit "http://x".


(** A playlist entry with a quality tag and a geo tag. *)
Definition tf1Annotated : list N :=
  lit "#EXTINF:-1,TF1 HD (1080p) [Geo-blocked]" ++ [nl] ++ lit "http://x".

End Samples.

(** * Properties *)

Import Matcher.
Import Samples.

(** ** Notions for the further properties *)

(** [edits s t n]: [s] is turned into [t] by [n] single-code-unit
    insertions, deletions and substitutions (the other code units are
    kept), read from the left. *)
Inductive edits : list N -> list N -> nat -> Prop :=
| edits_nil : edits [] [] 0
| edits_keep c s t n : edits s t n -> edits (c :: s) (c :: t) n
| edits_subst c d s t n : edits s t n -> edits (c :: s) (d :: t) (S n)
| edits_delete c s t n : edits s t n -> edits (c :: s) t (S n)
| edits_insert d s t n : edits s t n -> edits s (d :: t) (S n).

(** The same scripts read from the right. *)
Inductive editsR : list N -> list N -> nat -> Prop :=
| editsR_nil : editsR [] [] 0
| editsR_keep c s t n : editsR s t n -> editsR (s ++ [c]) (t ++ [c]) n
| editsR_subst c d s t n : editsR s t n -> editsR (s ++ [c]) (t ++ [d]) (S n)
| editsR_delete c s t n : editsR s t n -> editsR (s ++ [c]) t (S n)
| editsR_insert d s t n : editsR s t n -> editsR s (t ++ [d]) (S n).

(** The channels of a list of lines, read from the left: each line with
    the line that follows it. *)
Fixpoint entries (lines : list (list N)) : list PlaylistChannel :=
  match lines with
  | [] => []
  | raw :: rest =>
      let line := trim raw in
      let url := match rest with next :: _ => trim next | [] => [] end in
      (if startsWith line EXTINF && (truthy (nameOf line) && truthy url)
       then [mkPlaylistChannel (nameOf line) (tvgIdOf line) url]
       else [])
      ++ entries rest
  end.

(** A text that is not empty and has no white space at its ends. *)
Definition trimmed (s : list N) : Prop := s <> [] /\ trim s = s.

(** A display name and a stream URL that [parseM3U] reads back from the
    two lines of an entry. *)
Definition goodName (s : list N) : Prop :=
  trimmed s /\ forallb (fun x => negb (isLineTerminator x)) s = true.
Definition goodUrl (s : list N) : Prop :=
  trimmed s /\ (nl ∉ s) /\ startsWith s EXTINF = false.
(** An identifier that can stand in the [tvg-id] attribute. *)
Definition goodId (s : list N) : Prop := (44 ∉ s) /\ (nl ∉ s).

(** A name that [clean] keeps in front of an annotation: no white space
    at its ends, no opening parenthesis or bracket. *)
Definition plainName (k : list N) : Prop :=
  trimmed k /\ (40 ∉ k) /\ (91 ∉ k).

(** The text that the first script writes to [fr_corrected.m3u], from the
    text of the playlist and the channels of the EPG: the part of its
    [main] between the reads and the write. *)
Definition correctedPlaylist (playlistContent : list N)
    (epgChannels : list EpgChannel) : list N :=
  let playlistChannels := parseM3U playlistContent in
  let '(matches, unmatched) := matchChannels playlistChannels epgChannels in
  generateCorrectedM3U matches unmatched.

(** An EPG channel whose display name has no letter and no digit. *)
Definition blankEpg : EpgChannel := mkEpgChannel (lit "Blank.fr") (lit "***").

(** The playlist of the scenario with white space around its lines, and
    its two lines of a single entry. *)
Definition paddedEntry : list N :=
  lit "  #EXTINF:-1,A  " ++ [nl] ++ lit " http://a ".
Definition plainEntry : list N := lit "#EXTINF:-1,A" ++ [nl] ++ lit "http://a".

(** *** What a directive line holds *)

(** No code unit of [g] is a line terminator: line feed, carriage return,
    line separator, paragraph separator. *)
Definition noTerminator (g : list N) : Prop :=
  forall c, c ∈ g -> c <> 10 /\ c <> 13 /\ c <> 8232 /\ c <> 8233.

(** [g] is the trailing display name of [line]: the text from after a
    comma to the end of the line, free of line terminators, for the
    leftmost comma that is followed by such a text. *)
Definition trailingName (line g : list N) : Prop :=
  exists pre,
    line = pre ++ 44 :: g /\ noTerminator g
    /\ forall pre' g', line = pre' ++ 44 :: g' -> noTerminator g' ->
         (length pre <= length pre')%nat.

(** [v] is the value of the [tvg-id] attribute of [line]: the text
    between the first place where [tvg-id=] and a double quote stand, with
    a double quote somewhere after them, and the next double quote; the
    empty text when there is no such place. *)
Definition tvgIdAttribute (line v : list N) : Prop :=
  (exists pre post,
     line = pre ++ (lit "tvg-id=" ++ [34]) ++ v ++ 34 :: post /\ (34 ∉ v)
     /\ forall pre' v' post',
          line = pre' ++ (lit "tvg-id=" ++ [34]) ++ v' ++ 34 :: post' ->
          (length pre <= length pre')%nat)
  \/ (v = []
      /\ forall pre v' post,
           line <> pre ++ (lit "tvg-id=" ++ [34]) ++ v' ++ 34 :: post).

(** A code unit that does not occur in a given literal. *)
Ltac not_in_literal :=
  vm_compute; let H := fresh in
  intros H; repeat (apply elem_of_cons in H as [H|H]; [discriminate|]);
  by apply elem_of_nil in H.

(** ** JavaScript arrays *)

Lemma array_set_end {A} (hole : A) (a : list A) (i : nat) (v : A) :
  i = length a -> array_set hole a i v = a ++ [v].
Proof.
  intros ->. unfold array_set. case_decide; [lia|].
  by rewrite Nat.sub_diag.
Qed.

Lemma array_set_inside {A} (hole : A) (a : list A) (i : nat) (v : A) :
  (i < length a)%nat -> array_set hole a i v = <[i := v]> a.
Proof. intros Hi. unfold array_set. by case_decide. Qed.

Section LevenshteinFacts.
Variables str1 str2 : list N.
Let n1 := length str1.
Let n2 := length str2.
Abbreviation D := (dist str1 str2).
Abbreviation rowOf := (rowOf str1 str2).
Abbreviation matOf := (matOf str1 str2).
Abbreviation rowsDone := (rowsDone str1).

Lemma dist_col0 i : D i 0 = i.
Proof. by destruct i. Qed.

Lemma dist_step i j :
  D (S i) (S j) =
    if strEq (charAt str2 i) (charAt str1 j) then D i j
    else min3 (D i j + 1) (D (S i) j + 1) (D i (S j) + 1).
Proof. reflexivity. Qed.

Lemma length_rowOf r k : length (rowOf r k) = k.
Proof. unfold Matcher.rowOf. by rewrite length_fmap, length_seq. Qed.

Lemma rowOf_S r k : rowOf r (S k) = rowOf r k ++ [D r k].
Proof. unfold Matcher.rowOf. by rewrite seq_S, fmap_app. Qed.

Lemma lookup_rowOf r k c : (c < k)%nat -> rowOf r k !! c = Some (D r c).
Proof.
  intros Hc. unfold Matcher.rowOf.
  by rewrite list_lookup_fmap, lookup_seq_lt.
Qed.

Lemma length_matOf w : length (matOf w) = S n2.
Proof. unfold Matcher.matOf. by rewrite length_fmap, length_seq. Qed.

Lemma lookup_matOf w r :
  (r <= n2)%nat -> matOf w !! r = Some (rowOf r (w r)).
Proof.
  intros Hr. unfold Matcher.matOf.
  rewrite list_lookup_fmap, lookup_seq_lt by (subst n2; lia). done.
Qed.

Lemma lookup_matOf_None w r : (n2 < r)%nat -> matOf w !! r = None.
Proof.
  intros Hr. apply lookup_ge_None_2. rewrite length_matOf. lia.
Qed.

Lemma total_matOf w r : (r <= n2)%nat -> matOf w !!! r = rowOf r (w r).
Proof. intros Hr. by apply list_lookup_total_correct, lookup_matOf. Qed.

Lemma mget_matOf w r c :
  (r <= n2)%nat -> (c < w r)%nat -> mget (matOf w) r c = D r c.
Proof.
  intros Hr Hc. unfold mget. rewrite total_matOf by done.
  by apply list_lookup_total_correct, lookup_rowOf.
Qed.

Lemma matOf_ext w w' :
  (forall r, (r <= n2)%nat -> w r = w' r) -> matOf w = matOf w'.
Proof.
  intros Hw. apply list_eq. intros r.
  destruct (decide (r <= n2)%nat) as [Hr|Hr].
  - rewrite !lookup_matOf by done. by rewrite Hw.
  - rewrite !lookup_matOf_None by lia. done.
Qed.

Lemma insert_matOf w r k :
  (r <= n2)%nat -> <[r := rowOf r k]> (matOf w) = matOf (widen w r k).
Proof.
  intros Hr. apply list_eq. intros r'.
  destruct (decide (r' <= n2)%nat) as [Hr'|Hr'].
  - rewrite lookup_matOf by done. unfold widen.
    destruct (decide (r' = r)) as [->|Hne].
    + rewrite list_lookup_insert_eq; [done|]. rewrite length_matOf. lia.
    + rewrite list_lookup_insert_ne by done. by rewrite lookup_matOf.
  - rewrite lookup_matOf_None by lia.
    apply lookup_ge_None_2. rewrite length_insert, length_matOf. lia.
Qed.

(** Writing the next cell of a row. *)
Lemma mset_matOf_next w r c :
  (r <= n2)%nat -> w r = c ->
  mset (matOf w) r c (D r c) = matOf (widen w r (S c)).
Proof.
  intros Hr Hw. unfold mset. rewrite total_matOf by done.
  rewrite Hw, (array_set_end 0%nat) by (by rewrite length_rowOf).
  rewrite <- rowOf_S.
  rewrite array_set_inside by (rewrite length_matOf; lia).
  by apply insert_matOf.
Qed.

(** Writing again a cell that is already there. *)
Lemma mset_matOf_again w r c :
  (r <= n2)%nat -> (c < w r)%nat ->
  mset (matOf w) r c (D r c) = matOf w.
Proof.
  intros Hr Hc. unfold mset. rewrite total_matOf by done.
  rewrite (array_set_inside 0%nat) by (rewrite length_rowOf; lia).
  rewrite (list_insert_id (rowOf r (w r))) by by apply lookup_rowOf.
  rewrite array_set_inside by (rewrite length_matOf; lia).
  apply list_insert_id. by apply lookup_matOf.
Qed.

Lemma initRows_spec : initRows str2 = matOf (fun _ => 1%nat).
Proof.
  unfold initRows, Matcher.matOf. fold n2.
  assert (Hgen : forall n k,
    fold_left (fun m i => array_set [] m i [i]) (seq k n)
      ((fun r => rowOf r 1) <$> seq 0 k)
    = (fun r => rowOf r 1) <$> seq 0 (k + n)).
  { induction n as [|n IH]; intros k; simpl.
    - by rewrite Nat.add_0_r.
    - rewrite array_set_end by (by rewrite length_fmap, length_seq).
      replace [[k]] with ((fun r => rowOf r 1) <$> [k])
        by (simpl; unfold Matcher.rowOf; simpl; by rewrite dist_col0).
      rewrite <- fmap_app.
      change [k] with [(0 + k)%nat]. rewrite <- seq_S.
      rewrite IH. do 2 f_equal. lia. }
  apply (Hgen (S n2) 0%nat).
Qed.

Lemma widen_widen w r k k' :
  matOf (widen (widen w r k) r k') = matOf (widen w r k').
Proof. apply matOf_ext. intros r' _. unfold widen. by case_decide. Qed.

(** A loop that writes the cells [k], [k+1], ... of row [r] in turn. *)
Lemma fold_row (val : Matrix -> nat -> nat) w r :
  (r <= n2)%nat ->
  forall n k,
    (forall j, (k <= j < k + n)%nat -> val (matOf (widen w r j)) j = D r j) ->
    fold_left (fun m j => mset m r j (val m j)) (seq k n) (matOf (widen w r k))
    = matOf (widen w r (k + n)).
Proof.
  intros Hr. induction n as [|n IH]; intros k Hval; simpl.
  - by rewrite Nat.add_0_r.
  - rewrite Hval by lia.
    rewrite mset_matOf_next by (done || (unfold widen; by case_decide)).
    rewrite widen_widen, IH.
    + f_equal. f_equal. lia.
    + intros j Hj. apply Hval. lia.
Qed.

Lemma initCols_spec :
  initCols str1 (matOf (fun _ => 1%nat))
  = matOf (widen (fun _ => 1%nat) 0 (S n1)).
Proof.
  unfold initCols. fold n1. simpl.
  rewrite (mset_matOf_again _ 0 0) by lia.
  rewrite <- (widen_widen _ 0 1 (S n1)).
  transitivity (matOf (widen (widen (fun _ => 1%nat) 0 1) 0 (1 + n1))); [|done].
  rewrite <- (fold_row (fun _ j => j) _ 0) by (lia || done).
  f_equal. apply matOf_ext. intros r _. unfold widen. by case_decide.
Qed.

Lemma cell_spec w i j :
  (1 <= i <= n2)%nat -> (1 <= j <= n1)%nat ->
  w (i - 1)%nat = S n1 ->
  cell str1 str2 (matOf (widen w i j)) i j = D i j.
Proof.
  intros Hi Hj Hw. unfold cell.
  assert (Hprev : widen w i j (i - 1)%nat = S n1).
  { unfold widen. case_decide; [lia|done]. }
  assert (Hcur : widen w i j i = j).
  { unfold widen. by case_decide. }
  rewrite !mget_matOf by lia.
  destruct i as [|i]; [lia|]. destruct j as [|j]; [lia|].
  rewrite dist_step. simpl. by rewrite !Nat.sub_0_r.
Qed.

Lemma fillRow_spec i :
  (1 <= i <= n2)%nat ->
  fillRow str1 str2 (matOf (rowsDone i)) i = matOf (rowsDone (S i)).
Proof.
  intros Hi. unfold fillRow. fold n1.
  replace (matOf (rowsDone i)) with (matOf (widen (rowsDone i) i 1)).
  - rewrite (fold_row (fun m j => cell str1 str2 m i j)) by first
      [ lia
      | intros j Hj; apply cell_spec; [lia..|];
        unfold rowsDone; case_decide; [done|lia] ].
    apply matOf_ext. intros r _. unfold widen, rowsDone.
    repeat case_decide; lia.
  - apply matOf_ext. intros r _. unfold widen, rowsDone.
    repeat case_decide; lia.
Qed.

Lemma fill_spec n k :
  (1 <= k)%nat -> (k + n <= S n2)%nat ->
  fold_left (fillRow str1 str2) (seq k n) (matOf (rowsDone k))
  = matOf (rowsDone (k + n)).
Proof.
  revert k. induction n as [|n IH]; intros k Hk Hn; simpl.
  - by rewrite Nat.add_0_r.
  - rewrite fillRow_spec by lia. rewrite IH by lia. do 2 f_equal. lia.
Qed.

(** The matrix computation returns the distance of the recurrence. *)
Lemma levenshteinDistance_dist :
  levenshteinDistance str1 str2 = D n2 n1.
Proof.
  unfold levenshteinDistance, fill. fold n1 n2.
  rewrite initRows_spec, initCols_spec.
  replace (matOf (widen (fun _ => 1%nat) 0 (S n1))) with (matOf (rowsDone 1)).
  - rewrite fill_spec by lia.
    apply mget_matOf; [lia|]. unfold rowsDone. case_decide; lia.
  - apply matOf_ext. intros r _. unfold widen, rowsDone.
    repeat case_decide; lia.
Qed.

Lemma dist_le_max i j : (D i j <= Nat.max i j)%nat.
Proof.
  revert j. induction i as [|i IHi]; intros j; [simpl; lia|].
  induction j as [|j IHj]; [rewrite dist_col0; lia|].
  rewrite dist_step. specialize (IHi j) as Hd.
  destruct (strEq _ _); unfold min3; lia.
Qed.

End LevenshteinFacts.

Lemma dist_sym (s t : list N) i j : dist s t i j = dist t s j i.
Proof.
  revert j. induction i as [|i IHi]; intros j.
  - by rewrite dist_col0.
  - induction j as [|j IHj]; [done|].
    rewrite !dist_step, <- IHj, !IHi.
    unfold strEq. rewrite (bool_decide_ext _ (charAt s j = charAt t i)) by done.
    destruct (bool_decide _); [done|]. unfold min3. lia.
Qed.

Lemma levenshteinDistance_sym (s t : list N) :
  levenshteinDistance s t = levenshteinDistance t s.
Proof. rewrite !levenshteinDistance_dist. apply dist_sym. Qed.

Lemma levenshteinDistance_le (s t : list N) :
  (levenshteinDistance s t <= Nat.max (length s) (length t))%nat.
Proof.
  rewrite levenshteinDistance_dist.
  etransitivity; [apply dist_le_max|]. lia.
Qed.


(** ** Strings *)

Lemma strEq_true (s t : list N) : strEq s t = true <-> s = t.
Proof. unfold strEq. apply bool_decide_eq_true. Qed.

Lemma strEq_sym (s t : list N) : strEq s t = strEq t s.
Proof. unfold strEq. by apply bool_decide_ext. Qed.

Lemma startsWith_spec (s p : list N) :
  startsWith s p = true <-> exists rest, s = p ++ rest.
Proof.
  revert s. induction p as [|x p IH]; intros s; simpl.
  - split; [intros _; by exists s|done].
  - destruct s as [|y s].
    + split; [done|]. by intros [rest Hrest].
    + rewrite andb_true_iff, N.eqb_eq, IH. split.
      * intros [-> [rest ->]]. by exists rest.
      * intros [rest [= -> ->]]. split; [done|]. by exists rest.
Qed.

(** [includes] decides occurrence as a contiguous substring. *)
Lemma includes_spec (s sub : list N) :
  includes s sub = true <-> exists pre post, s = pre ++ sub ++ post.
Proof.
  induction s as [|c s IH]; simpl.
  - rewrite orb_false_r, startsWith_spec. split.
    + intros [rest Hrest]. by exists [], rest.
    + intros [pre [post H]]. destruct pre; [by exists post|done].
  - rewrite orb_true_iff, startsWith_spec, IH. split.
    + intros [[rest Hrest]|[pre [post ->]]].
      * by exists [], rest.
      * by exists (c :: pre), post.
    + intros [[|c' pre] [post H]].
      * left. by exists post.
      * right. injection H as -> ->. by exists pre, post.
Qed.

(** The empty string occurs in every string. *)
Lemma includes_nil (s : list N) : includes s [] = true.
Proof. apply includes_spec. by exists [], s. Qed.

(** ** fuzzyMatch *)

Lemma longerOf_length (s1 s2 : list N) :
  length (longerOf s1 s2) = Nat.max (length s1) (length s2).
Proof. unfold longerOf. destruct (Nat.ltb_spec (length s2) (length s1)); lia. Qed.

Lemma shorterOf_length (s1 s2 : list N) :
  length (shorterOf s1 s2) = Nat.min (length s1) (length s2).
Proof. unfold shorterOf. destruct (Nat.ltb_spec (length s2) (length s1)); lia. Qed.

(** The distance passed to the quotient never exceeds the longer length. *)
Lemma editDistance_le_longer (s1 s2 : list N) :
  (levenshteinDistance (longerOf s1 s2) (shorterOf s1 s2)
   <= length (longerOf s1 s2))%nat.
Proof.
  etransitivity; [apply levenshteinDistance_le|].
  rewrite longerOf_length, shorterOf_length. lia.
Qed.

Lemma ratio_eq (len dist : nat) :
  (0 < len)%nat ->
  (ratio len dist == (Z.of_nat len - Z.of_nat dist) # Pos.of_nat len)%Q.
Proof.
  intros Hlen. unfold ratio, Qeq, Qdiv, Qinv, Qmult, Qminus, Qplus, Qopp.
  destruct len as [|len]; [lia|].
  rewrite <- Pos.of_nat_succ.
  change (Z.of_nat (S len)) with (Z.pos (Pos.of_succ_nat len)).
  cbn [inject_Z Qnum Qden]. lia.

Qed.

Lemma ratio_bounds (len dist : nat) :
  (0 < len)%nat -> (dist <= len)%nat ->
  (0 <= ratio len dist)%Q /\ (ratio len dist <= 1)%Q.
Proof.
  intros Hlen Hdist. rewrite ratio_eq by done.
  unfold Qle. cbn [Qnum Qden]. lia.
Qed.

Lemma ratio_eq_08 (len dist : nat) :
  (0 < len)%nat ->
  (ratio len dist == 8 # 10)%Q <-> len = (5 * dist)%nat.
Proof.
  intros Hlen. rewrite ratio_eq by done.
  unfold Qeq. cbn [Qnum Qden].
  rewrite <- (Nat2Pos.id len) at 1 3 by lia.
  rewrite positive_nat_Z. lia.
Qed.

(** C3.  For all strings [a] and [b], [fuzzyMatch a b] lies in the closed
    interval from 0 to 1; and the distance computed in the edit-distance
    branch never exceeds the length of the longer normalised form, so the
    quotient [(len - dist) / len] is never negative. *)
Theorem fuzzyMatch_range (a b : list N) :
  (0 <= fuzzyMatch a b)%Q /\ (fuzzyMatch a b <= 1)%Q /\
  (levenshteinDistance (longerOf (normalize a) (normalize b))
                       (shorterOf (normalize a) (normalize b))
   <= length (longerOf (normalize a) (normalize b)))%nat.
Proof.
  split_and!; [| |apply editDistance_le_longer].
  all: unfold fuzzyMatch; cbv zeta.
  all: destruct (strEq _ _); [done|].
  all: destruct (_ || _); [done|].
  all: destruct (Nat.eqb_spec (length (longerOf (normalize a) (normalize b))) 0);
    [done|].
  all: apply ratio_bounds; [lia|apply editDistance_le_longer].
Qed.

(** C9.  [fuzzyMatch] is symmetric: swapping the arguments gives the same
    score, in the edit-distance branch too, where the longer and the
    shorter form trade places when the lengths are equal. *)
Theorem fuzzyMatch_sym (a b : list N) : fuzzyMatch a b = fuzzyMatch b a.
Proof.
  unfold fuzzyMatch; cbv zeta.
  set (s1 := normalize a). set (s2 := normalize b).
  rewrite (strEq_sym s2 s1), (orb_comm (includes s2 s1)).
  destruct (strEq s1 s2); [done|].
  destruct (_ || _); [done|].
  unfold longerOf, shorterOf.
  destruct (Nat.ltb_spec (length s2) (length s1)) as [H21|H21];
    destruct (Nat.ltb_spec (length s1) (length s2)) as [H12|H12];
    try lia; try done.
  assert (Hlen : length s1 = length s2) by lia.
  by rewrite Hlen, (levenshteinDistance_sym s2 s1).
Qed.

Lemma includes_substringOf (s sub : list N) :
  includes s sub = true <-> substringOf sub s.
Proof. apply includes_spec. Qed.

(** C4, as stated, fails: the normalised forms [abcde] and [abcdx] differ
    and neither occurs in the other, yet the score is 0.8, from the
    edit-distance branch ((5 - 1) / 5). *)
Lemma fuzzyMatch_edit_08 :
  ~ (normalize (lit "abcde") <> normalize (lit "abcdx") ->
     (fuzzyMatch (lit "abcde") (lit "abcdx") == 8 # 10)%Q <->
       (normalize (lit "abcdx") <> []
        /\ substringOf (normalize (lit "abcdx")) (normalize (lit "abcde")))
       \/ (normalize (lit "abcde") <> []
           /\ substringOf (normalize (lit "abcde")) (normalize (lit "abcdx")))).
Proof.
  intros Hclaim.
  assert (Hne : normalize (lit "abcde") <> normalize (lit "abcdx"))
    by (vm_compute; congruence).
  destruct (proj1 (Hclaim Hne)) as [[_ Hsub]|[_ Hsub]].
  - vm_compute. reflexivity.
  - apply includes_substringOf in Hsub. vm_compute in Hsub. discriminate.
  - apply includes_substringOf in Hsub. vm_compute in Hsub. discriminate.
Qed.

(** When exactly one normalised form is empty, [includes] holds (the empty
    string occurs in every string) and the score is 0.8. *)
Example fuzzyMatch_empty_form :
  normalize (lit "***") = [] /\ normalize (lit "TF1") = lit "tf1"
  /\ fuzzyMatch (lit "***") (lit "TF1") = (8 # 10)%Q.
Proof. vm_compute. done. Qed.

(** C4, amended.  For names whose normalised forms are unequal and both
    non-empty, [fuzzyMatch] returns 0.8 exactly when one normalised form
    occurs in the other, or the edit-distance quotient itself is 4/5 (the
    longer length is five times the distance). *)
Theorem fuzzyMatch_08_iff (a b : list N) :
  normalize a <> normalize b ->
  normalize a <> [] -> normalize b <> [] ->
  (fuzzyMatch a b == 8 # 10)%Q <->
    substringOf (normalize b) (normalize a)
    \/ substringOf (normalize a) (normalize b)
    \/ length (longerOf (normalize a) (normalize b))
       = (5 * levenshteinDistance (longerOf (normalize a) (normalize b))
                                  (shorterOf (normalize a) (normalize b)))%nat.
Proof.
  intros Hne Ha Hb. unfold fuzzyMatch; cbv zeta.
  set (s1 := normalize a) in *. set (s2 := normalize b) in *.
  destruct (strEq s1 s2) eqn:Heq; [by apply strEq_true in Heq|].
  rewrite <- !includes_substringOf.
  destruct (includes s1 s2) eqn:H12; [simpl; split; [by left|done]|].
  destruct (includes s2 s1) eqn:H21; [simpl; split; [by right; left|done]|].
  simpl.
  assert (Hlen : (0 < length (longerOf s1 s2))%nat).
  { rewrite longerOf_length. destruct s1; [done|simpl; lia]. }
  destruct (Nat.eqb_spec (length (longerOf s1 s2)) 0) as [H0|_]; [lia|].
  rewrite ratio_eq_08 by done. split; [by right; right|].
  by intros [?|[?|?]].
Qed.

(** The amended C4 at [France 2] and [France2.fr]. *)
Lemma fuzzyMatch_08_iff_france2 :
  normalize (lit "France 2") <> normalize (lit "France2.fr")
  /\ normalize (lit "France 2") <> []
  /\ normalize (lit "France2.fr") <> []
  /\ ((fuzzyMatch (lit "France 2") (lit "France2.fr") == 8 # 10)%Q <->
        substringOf (normalize (lit "France2.fr")) (normalize (lit "France 2"))
        \/ substringOf (normalize (lit "France 2")) (normalize (lit "France2.fr"))
        \/ length (longerOf (normalize (lit "France 2"))
                            (normalize (lit "France2.fr")))
           = (5 * levenshteinDistance
                    (longerOf (normalize (lit "France 2"))
                              (normalize (lit "France2.fr")))
                    (shorterOf (normalize (lit "France 2"))
                               (normalize (lit "France2.fr"))))%nat).
Proof.
  assert (H1 : normalize (lit "France 2") <> normalize (lit "France2.fr"))
    by (vm_compute; congruence).
  assert (H2 : normalize (lit "France 2") <> []) by (vm_compute; congruence).
  assert (H3 : normalize (lit "France2.fr") <> []) by (vm_compute; congruence).
  split_and!; [done..|].
  exact (fuzzyMatch_08_iff (lit "France 2") (lit "France2.fr") H1 H2 H3).
Defined.

(** C2, as stated, fails: the score of [Arte HD] against [ArteFR] is 4/6,
    and the threshold check does not reject it. *)
Lemma arte_not_rejected :
  ~ ((fuzzyMatch (lit "Arte HD") (lit "ArteFR") == 4 # 6)%Q
     /\ gt (fuzzyMatch (lit "Arte HD") (lit "ArteFR")) (6 # 10) = false).
Proof. intros [_ H]. vm_compute in H. discriminate. Qed.

(** C2, amended.  The normalised forms are [artehd] and [artefr], their
    distance is 2, the score is (6 - 2) / 6; this score is strictly above
    0.6, so the check accepts it and [matchChannels] returns the pair as a
    match. *)
Theorem arte_accepted :
  normalize (lit "Arte HD") = lit "artehd"
  /\ normalize (lit "ArteFR") = lit "artefr"
  /\ levenshteinDistance (lit "artefr") (lit "artehd") = 2%nat
  /\ (fuzzyMatch (lit "Arte HD") (lit "ArteFR") == 4 # 6)%Q
  /\ gt (fuzzyMatch (lit "Arte HD") (lit "ArteFR")) (6 # 10) = true
  /\ matchChannels [arteHD] [arteFR]
     = ([toMatch arteHD arteFR (fuzzyMatch (lit "Arte HD") (lit "ArteFR"))], []).
Proof. vm_compute. done. Qed.

(** ** matchChannels *)

Section MatchFacts.
Local Open Scope Q_scope.


Lemma gt_true (a b : Q) : gt a b = true <-> b < a.
Proof.
  unfold gt. rewrite negb_true_iff, <- not_true_iff_false, Qle_bool_iff.
  split; [apply Qnot_le_lt|apply Qlt_not_le].
Qed.

Lemma gt_false (a b : Q) : gt a b = false <-> a <= b.
Proof. unfold gt. by rewrite negb_false_iff, Qle_bool_iff. Qed.

Lemma consider_bestOf p es st e :
  bestOf p es st -> bestOf p (es ++ [e]) (consider p st e).
Proof.
  destruct st as [[e0|] s0]; unfold consider;
    set (s := fuzzyMatch (name p) (displayName e)).
  - intros (Hs0 & Heq & pre & post & -> & Hpre & Hpost).
    destruct (gt s s0) eqn:Hgt; simpl.
    + apply gt_true in Hgt.
      assert (Hs : gt s (6 # 10) = true) by (apply gt_true; lra).
      rewrite Hs. split_and!; [lra|done|].
      exists (pre ++ e0 :: post), []. split_and!; [done| |by intros ? ?%elem_of_nil].
      intros e' [He'|[->|He']%elem_of_cons]%elem_of_app.
      * specialize (Hpre _ He'). lra.
      * by subst s0.
      * specialize (Hpost _ He'). lra.
    + apply gt_false in Hgt. split_and!; [done..|].
      exists pre, (post ++ [e]). rewrite <- app_assoc. split_and!; [done..|].
      intros e' [He'|He']%elem_of_app; [by apply Hpost|].
      apply list_elem_of_singleton in He' as ->. done.
  - intros [-> Hnone].
    destruct (gt s (6 # 10)) eqn:Hthr.
    + apply gt_true in Hthr.
      assert (Hs : gt s 0 = true) by (apply gt_true; lra).
      rewrite Hs. simpl. split_and!; [done..|].
      exists es, []. split_and!; [done| |by intros ? ?%elem_of_nil].
      intros e' He'. specialize (Hnone _ He'). lra.
    + rewrite andb_false_r. split; [done|].
      apply gt_false in Hthr.
      intros e' [He'|He']%elem_of_app; [by apply Hnone|].
      apply list_elem_of_singleton in He' as ->. fold s. lra.
Qed.

Lemma findBest_bestOf p es : bestOf p es (findBest p es).
Proof.
  unfold findBest. induction es as [|e es IH] using rev_ind.
  - simpl. split; [done|]. by intros ? ?%elem_of_nil.
  - rewrite fold_left_app. simpl. by apply consider_bestOf.
Qed.

Lemma matchChannels_omap ps es :
  matchChannels ps es
  = (omap (matchFor es) ps, List.filter (fun p => negb (matched es p)) ps).
Proof.
  unfold matchChannels.
  change ([], []) with
    (omap (matchFor es) [], List.filter (fun p => negb (matched es p)) []).
  induction ps as [|p ps IH] using rev_ind; [done|].
  rewrite fold_left_app, IH. simpl. unfold matchStep, matchFor, matched.
  rewrite omap_app, List.filter_app. simpl.
  destruct (findBest p es) as [[e|] s]; simpl; by rewrite ?app_nil_r.
Qed.

(** C1.  Every match returned by [matchChannels] has a score strictly
    above 0.6 that is the maximum of [fuzzyMatch] over all EPG channels,
    and it names the first EPG channel that reaches this maximum (every
    earlier one scores strictly less); a playlist channel for which no
    EPG channel scores strictly above 0.6 is in [unmatched]. *)
Theorem matchChannels_best (ps : list PlaylistChannel) (es : list EpgChannel) :
  (forall m, m ∈ (matchChannels ps es).1 ->
     6 # 10 < score m
     /\ (forall e, e ∈ es -> fuzzyMatch (playlistName m) (displayName e) <= score m)
     /\ exists pre e post,
          es = pre ++ e :: post
          /\ epgId m = id e /\ epgName m = displayName e
          /\ score m = fuzzyMatch (playlistName m) (displayName e)
          /\ forall e', e' ∈ pre ->
               fuzzyMatch (playlistName m) (displayName e') < score m)
  /\ (forall p, p ∈ ps ->
        (forall e, e ∈ es -> ~ 6 # 10 < fuzzyMatch (name p) (displayName e)) ->
        p ∈ (matchChannels ps es).2).
Proof.
  rewrite matchChannels_omap. simpl. split.
  - intros m (p & Hp & Hm)%list_elem_of_omap.
    unfold matchFor in Hm. pose proof (findBest_bestOf p es) as Hbest.
    destruct (findBest p es) as [[e|] s]; [|done].
    injection Hm as <-. simpl.
    destruct Hbest as (Hs & Heq & pre & post & -> & Hpre & Hpost).
    split_and!; [done| |].
    + intros e' [He'|[->|He']%elem_of_cons]%elem_of_app.
      * specialize (Hpre _ He'). lra.
      * rewrite Heq. lra.
      * by apply Hpost.
    + exists pre, e, post. done.
  - intros p Hp Hnone. apply list_elem_of_In, filter_In.
    split; [by apply list_elem_of_In|].
    unfold matched. pose proof (findBest_bestOf p es) as Hbest.
    destruct (findBest p es) as [[e|] s]; [|done].
    destruct Hbest as (Hs & Heq & pre & post & -> & _).
    exfalso. apply (Hnone e); [|by rewrite <- Heq].
    apply elem_of_app. right. apply elem_of_cons. by left.
Qed.

End MatchFacts.

(** ** parseM3U *)

Lemma truthy_true (s : list N) : truthy s = true <-> s <> [].
Proof. by destruct s. Qed.

Lemma orElse_nil (a : option (list N)) :
  orElse a [] = match a with Some s => s | None => [] end.
Proof. destruct a as [[|]|]; done. Qed.

Lemma urlAt_lookup (lines : list (list N)) (i : nat) :
  urlAt lines i = match lines !! (i + 1)%nat with
                  | Some next => trim next
                  | None => []
                  end.
Proof. unfold urlAt. rewrite orElse_nil. by destruct (lines !! _). Qed.

Lemma parseStep_qualifies lines channels i :
  parseStep lines channels i
  = channels ++ (if qualifies lines i then [recordAt lines i] else []).
Proof.
  unfold parseStep, qualifies, recordAt; cbv zeta.
  destruct (startsWith _ _); simpl; [|by rewrite app_nil_r].
  destruct (truthy _ && truthy _); [done|by rewrite app_nil_r].
Qed.

Lemma fold_parseStep lines l channels :
  fold_left (parseStep lines) l channels
  = channels ++ (recordAt lines <$> List.filter (qualifies lines) l).
Proof.
  revert channels. induction l as [|i l IH]; intros channels; simpl.
  - by rewrite app_nil_r.
  - rewrite IH, parseStep_qualifies, <- app_assoc.
    by destruct (qualifies lines i).
Qed.

Lemma parseM3U_filter content :
  parseM3U content
  = recordAt (splitLines content)
      <$> List.filter (qualifies (splitLines content))
            (seq 0 (length (splitLines content))).
Proof. unfold parseM3U; cbv zeta. by rewrite fold_parseStep. Qed.

Lemma qualifies_spec lines i :
  qualifies lines i = true <->
    exists raw, lines !! i = Some raw
      /\ startsWith (trim raw) EXTINF = true
      /\ nameOf (trim raw) <> []
      /\ exists next, lines !! (i + 1)%nat = Some next /\ trim next <> [].
Proof.
  unfold qualifies; cbv zeta.
  rewrite !andb_true_iff, !truthy_true, urlAt_lookup.
  rewrite list_lookup_total_alt.
  destruct (lines !! i) as [raw|]; simpl.
  - split.
    + intros (Hdir & Hname & Hurl). exists raw. split_and!; [done..|].
      destruct (lines !! (i + 1)%nat) as [next|]; [by exists next|done].
    + intros (? & [= <-] & Hdir & Hname & next & -> & Hurl). done.
  - split; [by intros [? _]|by intros (? & ? & _)].
Qed.

Lemma afterPrefix_None (p s : list N) :
  startsWith s p = false -> afterPrefix p s = None.
Proof.
  revert s. induction p as [|x p IH]; intros [|y s]; simpl; try done.
  destruct (x =? y); [apply IH|done].
Qed.

Lemma matchTvgId_None (s : list N) :
  includes s (lit "tvg-id=" ++ [dq]) = false -> matchTvgId s = None.
Proof.
  induction s as [|c s IH]; intros Hinc; [done|].
  cbn [includes] in Hinc. apply orb_false_iff in Hinc as [Hhere Hrest].
  cbn [matchTvgId]. rewrite afterPrefix_None by done. by apply IH.
Qed.

(** *** The display name and the attribute of a directive *)

Lemma matchTvgId_unfold (s : list N) :
  matchTvgId s
  = match afterPrefix (lit "tvg-id=" ++ [dq]) s ≫= untilQuote with
    | Some g => Some g
    | None => match s with [] => None | _ :: s' => matchTvgId s' end
    end.
Proof. by destruct s. Qed.

Lemma untilQuote_no_dq (s g : list N) : untilQuote s = Some g -> dq ∉ g.
Proof.
  revert g. induction s as [|c s IH]; intros g; [done|]. cbn [untilQuote].
  destruct (N.eqb_spec c dq) as [->|Hc].
  - intros [= <-]. apply not_elem_of_nil.
  - destruct (untilQuote s) as [g'|]; [|done]. intros [= <-].
    apply not_elem_of_cons. split; [congruence|by apply IH].
Qed.

Lemma noTerminator_forallb (g : list N) :
  forallb (fun x => negb (isLineTerminator x)) g = true <-> noTerminator g.
Proof.
  rewrite forallb_forall. unfold noTerminator, isLineTerminator. split.
  - intros H c Hc%list_elem_of_In. specialize (H c Hc).
    apply negb_true_iff in H. rewrite !orb_false_iff, !N.eqb_neq in H. tauto.
  - intros H c Hc%list_elem_of_In. destruct (H c Hc) as (? & ? & ? & ?).
    apply negb_true_iff. rewrite !orb_false_iff, !N.eqb_neq. tauto.
Qed.

Lemma matchName_trailingName (s g : list N) :
  matchName s = Some g -> trailingName s g.
Proof.
  induction s as [|c s IH]; [done|]. cbn [matchName].
  destruct (N.eqb_spec c 44) as [->|Hc]; cbn [andb].
  - destruct (forallb _ s) eqn:Hs.
    + intros [= <-]. exists [].
      split_and!; [done|by apply noTerminator_forallb|].
      intros; simpl; lia.
    + intros (pre & Hpre & Hg & Hmin)%IH. exists (44 :: pre).
      split_and!; [by rewrite Hpre|done|].
      intros [|x pre'] g' Heq Hg'.
      * injection Heq as <-. apply noTerminator_forallb in Hg'. congruence.
      * injection Heq as _ Heq. simpl. specialize (Hmin _ _ Heq Hg'). lia.
  - intros (pre & Hpre & Hg & Hmin)%IH. exists (c :: pre).
    split_and!; [by rewrite Hpre|done|].
    intros [|x pre'] g' Heq Hg'.
    + injection Heq as Hx _. done.
    + injection Heq as _ Heq. simpl. specialize (Hmin _ _ Heq Hg'). lia.
Qed.

Lemma matchName_None (s : list N) :
  matchName s = None ->
  forall pre g, s = pre ++ 44 :: g -> ~ noTerminator g.
Proof.
  induction s as [|c s IH]; intros Hm pre g Heq Hg.
  - by destruct pre.
  - cbn [matchName] in Hm. destruct pre as [|x pre]; injection Heq as Hx Heq.
    + subst c s. apply noTerminator_forallb in Hg.
      rewrite N.eqb_refl, Hg in Hm. done.
    + destruct (_ && _) in Hm; [done|]. by apply (IH Hm pre g).
Qed.

Lemma trailingName_unique (line g1 g2 : list N) :
  trailingName line g1 -> trailingName line g2 -> g1 = g2.
Proof.
  intros (p1 & H1 & Hg1 & Hm1) (p2 & H2 & Hg2 & Hm2).
  pose proof (Hm1 _ _ H2 Hg2). pose proof (Hm2 _ _ H1 Hg1).
  rewrite H1 in H2. apply app_inj_1 in H2 as [_ [= ->]]; [done|lia].
Qed.

Lemma nameOf_trailingName (line g : list N) :
  trailingName line g -> nameOf line = trim g.
Proof.
  intros Hg. unfold nameOf. destruct (matchName line) as [g'|] eqn:Hm.
  - apply matchName_trailingName in Hm.
    by rewrite (trailingName_unique _ _ _ Hm Hg).
  - destruct Hg as (pre & Hline & Hg & _).
    by destruct (matchName_None _ Hm _ _ Hline).
Qed.

Lemma nameOf_nonempty (line : list N) :
  nameOf line <> [] <-> exists g, trailingName line g /\ trim g <> [].
Proof.
  split.
  - unfold nameOf. destruct (matchName line) as [g|] eqn:Hm; [|done].
    intros Hne. exists g. split; [by apply matchName_trailingName|done].
  - intros (g & Hg & Hne). by rewrite (nameOf_trailingName _ _ Hg).
Qed.

(** The leftmost comma, when the rest of the line has no terminator. *)
Lemma trailingName_first (pre g : list N) :
  44 ∉ pre -> noTerminator g -> trailingName (pre ++ 44 :: g) g.
Proof.
  intros Hpre Hg. apply matchName_trailingName.
  induction pre as [|c pre IH]; cbn [app matchName].
  - by rewrite N.eqb_refl, (proj2 (noTerminator_forallb g) Hg).
  - apply not_elem_of_cons in Hpre as [Hc Hpre].
    destruct (N.eqb_spec c 44) as [->|_]; [done|]. by apply IH.
Qed.

Lemma afterPrefix_Some (p s r : list N) :
  afterPrefix p s = Some r <-> s = p ++ r.
Proof.
  revert s. induction p as [|x p IH]; intros s; cbn [afterPrefix app].
  - split; [by intros [= ->]|by intros ->].
  - destruct s as [|y s]; [done|].
    destruct (N.eqb_spec x y) as [->|Hxy].
    + rewrite IH. split; [by intros ->|by intros [= ->]].
    + split; [done|]. intros [= <- _]. done.
Qed.

Lemma untilQuote_Some (s v : list N) :
  untilQuote s = Some v -> exists post, s = v ++ 34 :: post.
Proof.
  revert v. induction s as [|c s IH]; intros v; [done|]. cbn [untilQuote].
  destruct (N.eqb_spec c dq) as [->|Hc].
  - intros [= <-]. by exists s.
  - destruct (untilQuote s) as [g|]; [|done]. intros [= <-].
    destruct (IH g eq_refl) as [post ->]. by exists post.
Qed.

Lemma untilQuote_None (s : list N) : untilQuote s = None -> 34 ∉ s.
Proof.
  induction s as [|c s IH]; [intros _; apply not_elem_of_nil|].
  cbn [untilQuote]. destruct (N.eqb_spec c dq) as [->|Hc]; [done|].
  destruct (untilQuote s) as [g|]; [done|]. intros _.
  apply not_elem_of_cons. split; [done|by apply IH].
Qed.

(** The attribute does not stand at the start of [s]. *)
Lemma attribute_not_here (s : list N) :
  afterPrefix (lit "tvg-id=" ++ [dq]) s ≫= untilQuote = None ->
  forall v post, s <> (lit "tvg-id=" ++ [34]) ++ v ++ 34 :: post.
Proof.
  intros Hn v post ->.
  rewrite (proj2 (afterPrefix_Some _ _ _) eq_refl) in Hn.
  change (untilQuote (v ++ 34 :: post) = None) in Hn.
  apply untilQuote_None in Hn. apply Hn.
  apply elem_of_app. right. apply list_elem_of_here.
Qed.

Lemma matchTvgId_Some (s v : list N) :
  matchTvgId s = Some v ->
  exists pre post,
    s = pre ++ (lit "tvg-id=" ++ [34]) ++ v ++ 34 :: post /\ (34 ∉ v)
    /\ forall pre' v' post',
         s = pre' ++ (lit "tvg-id=" ++ [34]) ++ v' ++ 34 :: post' ->
         (length pre <= length pre')%nat.
Proof.
  induction s as [|c s IH]; rewrite matchTvgId_unfold.
  - vm_compute. done.
  - destruct (afterPrefix _ (c :: s) ≫= untilQuote) as [g|] eqn:Hhere.
    + intros [= ->].
      destruct (afterPrefix _ (c :: s)) as [r|] eqn:Hr; [|done].
      apply afterPrefix_Some in Hr. change (untilQuote r = Some v) in Hhere.
      pose proof (untilQuote_no_dq _ _ Hhere) as Hv.
      apply untilQuote_Some in Hhere as [post ->].
      exists [], post. split_and!; [done|done|intros; simpl; lia].
    + intros (pre & post & Hs & Hv & Hmin)%IH. exists (c :: pre), post.
      split_and!; [by rewrite Hs|done|].
      intros [|x pre'] v' post' Heq.
      * exfalso. by apply (attribute_not_here _ Hhere v' post').
      * injection Heq as _ Heq. simpl. specialize (Hmin _ _ _ Heq). lia.
Qed.

Lemma matchTvgId_absent (s : list N) :
  matchTvgId s = None ->
  forall pre v post, s <> pre ++ (lit "tvg-id=" ++ [34]) ++ v ++ 34 :: post.
Proof.
  induction s as [|c s IH]; rewrite matchTvgId_unfold.
  - intros _ [|x pre] v post H; [vm_compute in H|]; discriminate.
  - destruct (afterPrefix _ (c :: s) ≫= untilQuote) as [g|] eqn:Hhere; [done|].
    intros Hn [|x pre] v post Heq.
    + by apply (attribute_not_here _ Hhere v post).
    + injection Heq as _ Heq. by apply (IH Hn pre v post).
Qed.

Lemma tvgIdOf_attribute (line : list N) : tvgIdAttribute line (tvgIdOf line).
Proof.
  unfold tvgIdAttribute, tvgIdOf.
  destruct (matchTvgId line) as [v|] eqn:Hm.
  - left. by apply matchTvgId_Some.
  - right. split; [done|]. by apply matchTvgId_absent.
Qed.

(** A line in which [tvg-id=] and a double quote stand nowhere has the
    empty attribute value. *)
Lemma tvgIdAttribute_absent (line v : list N) :
  includes line (lit "tvg-id=" ++ [34]) = false ->
  tvgIdAttribute line v -> v = [].
Proof.
  intros Hinc [(pre & post & Hline & _)|[Hv _]]; [|done].
  assert (Hyes : includes line (lit "tvg-id=" ++ [34]) = true)
    by (apply includes_spec; by exists pre, (v ++ 34 :: post)).
  congruence.
Qed.

Lemma filter_seq_sorted (f : nat -> bool) (a n : nat) :
  StronglySorted lt (List.filter f (seq a n)).
Proof.
  revert a. induction n as [|n IH]; intros a; cbn [seq List.filter];
    [constructor|].
  destruct (f a); [|apply IH].
  constructor; [apply IH|]. apply Forall_forall.
  intros i Hi%list_elem_of_In%filter_In. destruct Hi as [Hi%in_seq _]. lia.
Qed.

(** C7.  The records of [parseM3U] stand, in order, for the line indices at
    which the trimmed line starts with [#EXTINF:], has a trailing display
    name that is not blank, and is followed by a line that is not blank;
    the record of such an index holds the display name trimmed, the value
    of the [tvg-id] attribute (empty when the line has none) and the next
    line trimmed.  Every other line gives no record, and the function is
    total.  On a playlist with entries of each kind, two records are
    returned: the entry with a blank name, the directive without a comma,
    the entry with a blank next line and the last directive with no line
    after it give none. *)
Theorem parseM3U_entries :
  (forall content : list N,
     exists idxs : list nat,
       StronglySorted lt idxs
       /\ (forall i, i ∈ idxs <->
             exists raw rest g next,
               splitLines content !! i = Some raw
               /\ trim raw = lit "#EXTINF:" ++ rest
               /\ trailingName (trim raw) g /\ trim g <> []
               /\ splitLines content !! (i + 1)%nat = Some next
               /\ trim next <> [])
       /\ Forall2 (fun i ch =>
             exists raw g next,
               splitLines content !! i = Some raw
               /\ splitLines content !! (i + 1)%nat = Some next
               /\ trailingName (trim raw) g
               /\ name ch = trim g
               /\ tvgIdAttribute (trim raw) (tvgId ch)
               /\ streamUrl ch = trim next)
            idxs (parseM3U content))
  /\ parseM3U mixedPlaylist
     = [ mkPlaylistChannel (lit "b, France 2") (lit "France2.fr")
           (lit "http://example/f2");
         mkPlaylistChannel (lit "Arte") [] (lit "http://example/arte") ].
Proof.
  split; [|vm_compute; reflexivity].
  intros content. set (lines := splitLines content).
  exists (List.filter (qualifies lines) (seq 0 (length lines))). split_and!.
  - apply filter_seq_sorted.
  - intros i. rewrite list_elem_of_In, filter_In, in_seq, qualifies_spec. split.
    + intros (_ & raw & Hraw & [rest Hdir]%startsWith_spec
              & [g [Hg Hne]]%nameOf_nonempty & next & Hnext & Hurl).
      by exists raw, rest, g, next.
    + intros (raw & rest & g & next & Hraw & Hdir & Hg & Hne & Hnext & Hurl).
      split; [apply lookup_lt_Some in Hraw; lia|].
      exists raw. split_and!;
        [done|apply startsWith_spec; by exists rest
        |apply nameOf_nonempty; by exists g|by exists next].
  - unfold lines at 3. rewrite parseM3U_filter. fold lines.
    apply Forall2_fmap_r, Forall_Forall2_diag, Forall_forall.
    intros i Hi%list_elem_of_In%filter_In. destruct Hi as [_ Hq].
    apply qualifies_spec in Hq
      as (raw & Hraw & _ & [g [Hg Hne]]%nameOf_nonempty & next & Hnext & Hurl).
    exists raw, g, next. unfold recordAt, compose; cbv zeta.
    cbn [name tvgId streamUrl].
    rewrite (list_lookup_total_correct _ _ _ Hraw), urlAt_lookup, Hnext.
    split_and!;
      [done|done|done|by apply nameOf_trailingName|apply tvgIdOf_attribute|done].
Qed.

(** C10.  A directive with a non-empty name followed by any non-blank
    line yields a channel whose [streamUrl] is that line trimmed; nothing
    is asked of the following line, which may itself be a directive. *)
Theorem parseM3U_next_line_is_url (content : list N) (i : nat)
    (raw next : list N) :
  splitLines content !! i = Some raw ->
  startsWith (trim raw) EXTINF = true ->
  nameOf (trim raw) <> [] ->
  splitLines content !! (i + 1)%nat = Some next ->
  trim next <> [] ->
  mkPlaylistChannel (nameOf (trim raw)) (tvgIdOf (trim raw)) (trim next)
    ∈ parseM3U content.
Proof.
  intros Hraw Hdir Hname Hnext Hurl.
  rewrite parseM3U_filter. apply list_elem_of_fmap. exists i. split.
  - unfold recordAt; cbv zeta.
    rewrite (list_lookup_total_correct _ _ _ Hraw), urlAt_lookup, Hnext. done.
  - apply list_elem_of_In, filter_In. split.
    + apply in_seq. apply lookup_lt_Some in Hraw. lia.
    + apply qualifies_spec. exists raw. split_and!; [done..|]. by exists next.
Qed.

(** ** Lines *)

Lemma unlines_cons l ls : unlines (l :: ls) = (l ++ [nl]) ++ unlines ls.
Proof. reflexivity. Qed.

Lemma unlines_app ls1 ls2 : unlines (ls1 ++ ls2) = unlines ls1 ++ unlines ls2.
Proof. unfold unlines. by rewrite fmap_app, concat_app. Qed.

Lemma splitLines_line (l rest : list N) :
  nl ∉ l -> splitLines (l ++ nl :: rest) = l :: splitLines rest.
Proof.
  induction l as [|c l IH]; intros Hl; [done|].
  apply not_elem_of_cons in Hl as [Hc Hl].
  cbn [app splitLines]. rewrite IH by done.
  destruct (N.eqb_spec c 10) as [->|_]; done.
Qed.

Lemma splitLines_unlines (ls : list (list N)) :
  Forall (fun l => nl ∉ l) ls -> splitLines (unlines ls) = ls ++ [[]].
Proof.
  induction 1 as [|l ls Hl _ IH]; [done|].
  rewrite unlines_cons, <- app_assoc. simpl.
  by rewrite splitLines_line, IH.
Qed.

(** The lines produced by [splitLines] hold no line feed. *)
Lemma splitLines_no_nl (s : list N) : Forall (fun l => nl ∉ l) (splitLines s).
Proof.
  induction s as [|c s IH]; simpl.
  - repeat constructor. apply not_elem_of_nil.
  - destruct (N.eqb_spec c 10) as [->|Hc].
    + constructor; [apply not_elem_of_nil|done].
    + destruct (splitLines s) as [|l ls]; inversion IH; subst.
      * repeat constructor. intros E%list_elem_of_singleton.
        unfold nl in E. congruence.
      * constructor; [|done]. apply not_elem_of_cons. split; [|done].
        intros E. unfold nl in E. congruence.
Qed.

(** A loop that appends two lines for each element. *)
Lemma fold_two_lines {A} (f g : A -> list N) (l : list A) (acc : list N) :
  fold_left (fun m3u x => (m3u ++ (f x ++ [nl])) ++ (g x ++ [nl])) l acc
  = acc ++ unlines (l ≫= fun x => [f x; g x]).
Proof.
  revert acc. induction l as [|x l IH]; intros acc; simpl.
  - by rewrite app_nil_r.
  - rewrite IH. cbn [mbind list_bind].
    rewrite !unlines_cons, <- !app_assoc. done.
Qed.

(** ** What [trim] and the patterns keep *)

Lemma dropWhile_split (p : N -> bool) (s : list N) :
  exists k, s = k ++ dropWhile p s.
Proof.
  induction s as [|c s [k IH]]; simpl; [by exists []|].
  destruct (p c); [|by exists []].
  exists (c :: k). simpl. by rewrite <- IH.
Qed.

(** [trim] returns a contiguous part of its argument. *)
Lemma trim_split (s : list N) : exists k1 k2, s = k1 ++ trim s ++ k2.
Proof.
  unfold trim, trimEnd, trimStart.
  destruct (dropWhile_split isSpace s) as [k1 H1].
  destruct (dropWhile_split isSpace (rev (dropWhile isSpace s))) as [k2 H2].
  exists k1, (rev k2). rewrite <- rev_app_distr, <- H2, rev_involutive. done.
Qed.

Lemma trim_sublist (s : list N) : trim s `sublist_of` s.
Proof.
  destruct (trim_split s) as (k1 & k2 & Hs). rewrite Hs at 2.
  by apply sublist_inserts_l, sublist_inserts_r.
Qed.

Lemma matchName_sublist (s g : list N) :
  matchName s = Some g -> g `sublist_of` s.
Proof.
  induction s as [|c s IH]; simpl; [done|].
  destruct (_ && _).
  - intros [= ->]. by apply sublist_cons.
  - intros Hg. by apply sublist_cons, IH.
Qed.

Lemma nameOf_sublist (line : list N) : nameOf line `sublist_of` line.
Proof.
  unfold nameOf. destruct (matchName line) as [g|] eqn:Hg.
  - etransitivity; [apply trim_sublist|].
    by apply matchName_sublist.
  - apply sublist_nil_l.
Qed.

Lemma no_nl_sublist (s t : list N) : s `sublist_of` t -> nl ∉ t -> nl ∉ s.
Proof. intros Hst Ht Hs. apply Ht. by eapply elem_of_sublist. Qed.

(** The names and stream URLs that [parseM3U] extracts hold no line feed. *)
Lemma parseM3U_no_nl (content : list N) (p : PlaylistChannel) :
  p ∈ parseM3U content -> (nl ∉ name p) /\ (nl ∉ streamUrl p).
Proof.
  rewrite parseM3U_filter. intros (i & -> & Hi)%list_elem_of_fmap.
  apply list_elem_of_In, filter_In in Hi as [Hi Hq].
  apply qualifies_spec in Hq as (raw & Hraw & _ & _ & next & Hnext & _).
  pose proof (splitLines_no_nl content) as Hlines.
  rewrite Forall_lookup in Hlines.
  unfold recordAt; cbv zeta; simpl.
  rewrite (list_lookup_total_correct _ _ _ Hraw), urlAt_lookup, Hnext. split.
  - apply (no_nl_sublist _ raw); [|exact (Hlines _ _ Hraw)].
    etransitivity; [apply nameOf_sublist|apply trim_sublist].
  - apply (no_nl_sublist _ next); [apply trim_sublist|exact (Hlines _ _ Hnext)].
Qed.

(** ** The two groups *)


Lemma sourceChannel_matchFor es ps :
  sourceChannel <$> omap (matchFor es) ps = List.filter (matched es) ps.
Proof.
  induction ps as [|p ps IH]; [done|].
  cbn [omap list_omap List.filter]. rewrite <- IH.
  unfold matchFor at 1 3, matched at 1.
  destruct (findBest p es) as [[e|] s]; [|done].
  by destruct p.
Qed.

Lemma generateCorrectedM3U_unlines ms us :
  generateCorrectedM3U ms us
  = unlines (header :: (ms ≫= matchLines) ++ (us ≫= channelLines)).
Proof.
  unfold generateCorrectedM3U; cbv zeta.
  rewrite (fold_two_lines (fun mt => extinfWithId (epgId mt) (playlistName mt))
             matchStreamUrl).
  rewrite (fold_two_lines (fun c => extinfPlain (name c)) streamUrl).
  rewrite unlines_cons, unlines_app, <- !app_assoc. done.
Qed.

Lemma lit_no_nl_extinfWithId id name :
  nl ∉ id -> nl ∉ name -> nl ∉ extinfWithId id name.
Proof.
  intros Hid Hname. unfold extinfWithId.
  rewrite !not_elem_of_app. split_and!; try done.
  all: vm_compute; intros H; repeat (apply elem_of_cons in H as [H|H]; [done|]);
    by apply elem_of_nil in H.
Qed.

Lemma lit_no_nl_extinfPlain name : nl ∉ name -> nl ∉ extinfPlain name.
Proof.
  intros Hname. unfold extinfPlain.
  rewrite !not_elem_of_app. split_and!; try done.
  vm_compute; intros H; repeat (apply elem_of_cons in H as [H|H]; [done|]);
    by apply elem_of_nil in H.
Qed.

Lemma header_no_nl : nl ∉ header.
Proof.
  vm_compute; intros H; repeat (apply elem_of_cons in H as [H|H]; [done|]);
    by apply elem_of_nil in H.
Qed.




(** ** generateCleanM3U *)

(** A loop that appends the entry of each element. *)
Lemma fold_entries {A} (entry : A -> list N) (f : A -> list (list N))
    (l : list A) (acc : list N) :
  (forall x, entry x = unlines (f x)) ->
  fold_left (fun m3u x => m3u ++ entry x) l acc = acc ++ unlines (l ≫= f).
Proof.
  intros Hentry. revert acc. induction l as [|x l IH]; intros acc; simpl.
  - by rewrite app_nil_r.
  - rewrite IH, Hentry. cbn [mbind list_bind]. by rewrite unlines_app, app_assoc.
Qed.

Lemma entryWithId_unlines c :
  Override.entryWithId c = unlines (Override.linesWithId c).
Proof. unfold Override.entryWithId, Override.linesWithId, unlines. simpl. by rewrite app_nil_r. Qed.

Lemma entryPlain_unlines c :
  Override.entryPlain c = unlines (Override.linesPlain c).
Proof. unfold Override.entryPlain, Override.linesPlain, unlines. simpl. by rewrite app_nil_r. Qed.


(** ** Cleaning the channel name *)

Lemma indexOf_None (c : N) (s : list N) : Override.indexOf c s = None -> c ∉ s.
Proof.
  induction s as [|x s IH]; simpl; [intros _; apply not_elem_of_nil|].
  destruct (N.eqb_spec x c) as [->|Hne]; [done|].
  destruct (Override.indexOf c s); [done|].
  intros _. apply not_elem_of_cons. split; [done|by apply IH].
Qed.

Lemma replaceFrom_sublist (o c : N) (skip : nat) (s : list N) :
  Override.replaceFrom o c skip s `sublist_of` s.
Proof.
  revert skip. induction s as [|x s IH]; intros skip; [done|].
  cbn [Override.replaceFrom]. destruct skip as [|k]; [|by apply sublist_cons].
  destruct (Override.matchAnnot o c (x :: s));
    [by apply sublist_cons|by apply sublist_skip].
Qed.

(** An opening character that is kept has no closing character after it. *)
Lemma replaceFrom_noPair (o c : N) (skip : nat) (s : list N) :
  isSpace o = false -> Override.noPair o c (Override.replaceFrom o c skip s).
Proof.
  intros Ho. revert skip. induction s as [|x s IH]; intros skip pre post.
  - simpl. by destruct pre.
  - cbn [Override.replaceFrom]. destruct skip as [|k]; [|apply IH].
    destruct (Override.matchAnnot o c (x :: s)) as [n|] eqn:Hm; [apply IH|].
    destruct pre as [|y pre]; [|intros [= _ H]; by eapply IH].
    intros [= -> <-].
    unfold Override.matchAnnot in Hm. cbn [dropWhile] in Hm.
    rewrite Ho, N.eqb_refl in Hm.
    destruct (Override.indexOf c s) eqn:Hidx; [done|].
    intros Hc. eapply indexOf_None; [done|].
    eapply elem_of_sublist; [done|apply replaceFrom_sublist].
Qed.

Lemma noPair_sublist (o c : N) (s t : list N) :
  s `sublist_of` t -> Override.noPair o c t -> Override.noPair o c s.
Proof.
  intros Hst Ht pre post ->.
  apply sublist_app_cons_l in Hst as (k1 & k2 & -> & _ & Hpost).
  intros Hc. apply (Ht k1 k2 eq_refl). by eapply elem_of_sublist.
Qed.

Lemma clean_sublist (name : list N) : Override.clean name `sublist_of` name.
Proof.
  unfold Override.clean, Override.removeAnnot.
  etransitivity; [apply trim_sublist|].
  etransitivity; apply replaceFrom_sublist.
Qed.

Lemma clean_noPair (name : list N) :
  Override.noPair 40 41 (Override.clean name)
  /\ Override.noPair 91 93 (Override.clean name).
Proof.
  unfold Override.clean, Override.removeAnnot. split.
  - eapply noPair_sublist; [|by apply (replaceFrom_noPair 40 41 0 name)].
    etransitivity; [apply trim_sublist|apply replaceFrom_sublist].
  - eapply noPair_sublist; [apply trim_sublist|by apply replaceFrom_noPair].
Qed.

Lemma dropWhile_head (p : N -> bool) (s : list N) (c : N) :
  head (dropWhile p s) = Some c -> p c = false.
Proof.
  induction s as [|x s IH]; simpl; [done|].
  destruct (p x) eqn:Hx; [done|]. by intros [= <-].
Qed.

Lemma last_rev {A} (l : list A) : last (rev l) = head l.
Proof. destruct l as [|x l]; [done|]. simpl. by rewrite last_snoc. Qed.

(** A trimmed string neither starts nor ends with white space. *)
Lemma trim_ends (s : list N) (c : N) :
  head (trim s) = Some c \/ last (trim s) = Some c -> isSpace c = false.
Proof.
  unfold trim, trimEnd, trimStart. intros [Hc|Hc].
  - destruct (dropWhile_split isSpace (rev (dropWhile isSpace s))) as [k Hk].
    apply (f_equal (@rev N)) in Hk. rewrite rev_involutive, rev_app_distr in Hk.
    apply (dropWhile_head isSpace s). rewrite Hk.
    by destruct (rev (dropWhile isSpace (rev (dropWhile isSpace s)))).
  - rewrite last_rev in Hc.
    by apply dropWhile_head in Hc.
Qed.

(** ** The override table *)

Lemma manualMappings_truthy (k v : list N) :
  Override.manualMappings !! k = Some v -> truthy v = true.
Proof.
  intros Hk. apply elem_of_list_to_map_2, list_elem_of_In in Hk.
  assert (Hall : forallb (fun kv => truthy kv.2) Override.manualMappingsEntries
                 = true) by (vm_compute; reflexivity).
  rewrite forallb_forall in Hall. apply (Hall _ Hk).
Qed.

(** A property access on the table gives a truthy value or [undefined]. *)
Lemma member_truthy (k : list N) (v : Override.TvgId) :
  Override.member Override.manualMappings k = Some v ->
  Override.truthyId v = true.
Proof.
  unfold Override.member.
  destruct (Override.manualMappings !! k) as [w|] eqn:Hk.
  - intros [= <-]. apply (manualMappings_truthy _ _ Hk).
  - case_bool_decide; [by intros [= <-]|discriminate].
Qed.

(** An own property hides the inherited member of the same name. *)
Lemma member_is_own (table : gmap (list N) (list N)) (k v : list N) :
  table !! k = Some v -> Override.member table k = Some (Override.IdText v).
Proof. intros Hk. unfold Override.member. by rewrite Hk. Qed.

(** For a name that [Object.prototype] does not have, the access is the
    lookup among the own properties. *)
Lemma member_own (table : gmap (list N) (list N)) (k : list N) :
  k ∉ Override.objectPrototypeKeys ->
  Override.member table k = Override.IdText <$> table !! k.
Proof.
  intros Hk. unfold Override.member.
  destruct (table !! k); [reflexivity|].
  rewrite bool_decide_eq_false_2 by done. reflexivity.
Qed.

Lemma resolve_manualMappings (cleanName name : list N) :
  Override.resolve Override.manualMappings cleanName name
  = match Override.member Override.manualMappings cleanName with
    | Some v => v
    | None => match Override.member Override.manualMappings name with
              | Some v => v
              | None => Override.IdText []
              end
    end.
Proof.
  unfold Override.resolve.
  destruct (Override.member Override.manualMappings cleanName) as [v|] eqn:Hc;
    cbn [Override.orElseId].
  - by rewrite (member_truthy _ _ Hc).
  - destruct (Override.member Override.manualMappings name) as [v|] eqn:Hn;
      cbn [Override.orElseId]; [|reflexivity].
    by rewrite (member_truthy _ _ Hn).
Qed.

Lemma resolve_truthy (cleanName name : list N) :
  Override.truthyId (Override.resolve Override.manualMappings cleanName name)
  = true
  <-> is_Some (Override.member Override.manualMappings cleanName)
      \/ is_Some (Override.member Override.manualMappings name).
Proof.
  rewrite resolve_manualMappings.
  destruct (Override.member Override.manualMappings cleanName) as [v|] eqn:Hc.
  - rewrite (member_truthy _ _ Hc). split; [by left; eexists|done].
  - destruct (Override.member Override.manualMappings name) as [v|] eqn:Hn.
    + rewrite (member_truthy _ _ Hn). split; [by right; eexists|done].
    + split; [done|]. by intros [[? ?]|[? ?]].
Qed.

(** The same for two names that [Object.prototype] does not have: the two
    lookups among the own properties, in order. *)
Lemma resolve_own (cleanName name : list N) :
  cleanName ∉ Override.objectPrototypeKeys ->
  name ∉ Override.objectPrototypeKeys ->
  Override.resolve Override.manualMappings cleanName name
  = Override.IdText
      match Override.manualMappings !! cleanName with
      | Some v => v
      | None => match Override.manualMappings !! name with
                | Some v => v
                | None => []
                end
      end.
Proof.
  intros Hc Hn. rewrite resolve_manualMappings, !member_own by done.
  destruct (Override.manualMappings !! cleanName); [reflexivity|].
  destruct (Override.manualMappings !! name); reflexivity.
Qed.

(** ** parseM3U with manual mappings *)

Lemma override_parseStep lines channels i :
  Override.parseStep lines channels i
  = channels ++ (if qualifies lines i
                 then [Override.mapped (nameOf (trim (lines !!! i))) (urlAt lines i)]
                 else []).
Proof.
  unfold Override.parseStep, qualifies, Override.mapped; cbv zeta.
  destruct (startsWith _ _); cbn [andb]; [|symmetry; apply app_nil_r].
  destruct (truthy _ && truthy _); [reflexivity|symmetry; apply app_nil_r].
Qed.

Lemma override_parseM3U_filter content :
  Override.parseM3U content
  = (fun i => Override.mapped (nameOf (trim (splitLines content !!! i)))
                              (urlAt (splitLines content) i))
      <$> List.filter (qualifies (splitLines content))
            (seq 0 (length (splitLines content))).
Proof.
  unfold Override.parseM3U; cbv zeta.
  generalize (seq 0 (length (splitLines content))). intros l.
  rewrite <- (app_nil_l (_ <$> _)). generalize (@nil Override.MappedChannel).
  induction l as [|i l IH]; intros channels; cbn [fold_left List.filter].
  - symmetry. apply app_nil_r.
  - rewrite IH, override_parseStep, <- app_assoc.
    destruct (qualifies (splitLines content) i); reflexivity.
Qed.

(** C6.  The playlist whose one channel is named [constructor], which is
    also its cleaned name: the override table has no entry for this name,
    yet the parser of the second script resolves the channel, to the member
    that the table inherits under this name, with [hasTvgId] true; the
    clean playlist lists the channel among those with EPG, with the text of
    that function as [tvg-id]. *)
Theorem override_inherited_member :
  Override.clean (lit "constructor") = lit "constructor"
  /\ Override.manualMappings !! lit "constructor" = None
  /\ Override.parseM3U constructorEntry
     = [ Override.mkMappedChannel (lit "constructor") (lit "constructor")
           (Override.IdInherited (lit "constructor")) (lit "http://x") true ]
  /\ splitLines
       (Override.generateCleanM3U (Override.parseM3U constructorEntry)).1.1
     = [ lit "#EXTM3U url-tvg=" ++ [34] ++ lit "fr_epg.xml" ++ [34];
         [];
         lit "# CHANNELS WITH EPG";
         lit "#EXTINF:-1 tvg-id=" ++ [34]
           ++ lit "function Object() { [native code] }" ++ [34]
           ++ lit ",constructor";
         lit "http://x";
         [];
         lit "# CHANNELS WITHOUT EPG";
         [] ].
Proof. split_and!; vm_compute; reflexivity. Qed.

(** ** The properties on sample inputs *)

(** C1 on the end-to-end scenario. *)
Lemma matchChannels_best_scenario :
  (6 # 10 < score (toMatch tf1 tf1Epg 1))%Q
  /\ unknownX ∈ (matchChannels [tf1; unknownX] [tf1Epg]).2.
Proof.
  destruct (matchChannels_best [tf1; unknownX] [tf1Epg]) as [Hm Hu]. split.
  - apply Hm. vm_compute. apply list_elem_of_here.
  - apply Hu.
    + apply list_elem_of_further, list_elem_of_here.
    + intros e He%list_elem_of_singleton. subst e. vm_compute. discriminate.
Defined.

(** C10 on two directives in a row: the first is kept, with the second
    as its stream URL. *)
Lemma parseM3U_next_line_is_url_two :
  splitLines twoDirectives !! 0%nat = Some (lit "#EXTINF:-1,A")
  /\ splitLines twoDirectives !! 1%nat = Some (lit "#EXTINF:-1,B")
  /\ mkPlaylistChannel (lit "A") [] (lit "#EXTINF:-1,B")
       ∈ parseM3U twoDirectives.
Proof.
  split_and!; [reflexivity..|].
  apply (parseM3U_next_line_is_url twoDirectives 0
           (lit "#EXTINF:-1,A") (lit "#EXTINF:-1,B"));
    vm_compute; (reflexivity || discriminate).
Defined.

(** C7 on the end-to-end scenario: the directive on the second line gives
    the channel [TF1], with the empty [tvgId]. *)
Lemma parseM3U_entries_scenario :
  exists ch, ch ∈ parseM3U scenario
    /\ name ch = lit "TF1" /\ tvgId ch = []
    /\ streamUrl ch = lit "http://example/tf1".
Proof.
  destruct (proj1 parseM3U_entries scenario) as (idxs & _ & Hin & Hrec).
  assert (Hd : trailingName (lit "#EXTINF:-1" ++ 44 :: lit "TF1") (lit "TF1")).
  { apply trailingName_first;
      [not_in_literal|apply noTerminator_forallb; reflexivity]. }
  assert (H1 : 1%nat ∈ idxs).
  { apply Hin.
    exists (lit "#EXTINF:-1,TF1"), (lit "-1,TF1"), (lit "TF1"),
           (lit "http://example/tf1").
    split_and!; [reflexivity|reflexivity|exact Hd|vm_compute; discriminate
                |reflexivity|vm_compute; discriminate]. }
  apply list_elem_of_lookup in H1 as [k Hk].
  destruct (Forall2_lookup_l _ _ _ _ _ Hrec Hk)
    as (ch & Hch & raw & g & next & Hraw & Hnext & Hg & Hname & Hid & Hurl).
  exists ch. split; [by eapply list_elem_of_lookup_2|].
  vm_compute in Hraw. injection Hraw as <-.
  vm_compute in Hnext. injection Hnext as <-.
  rewrite Hname, Hurl, <- (trailingName_unique _ _ _ Hd Hg).
  split_and!; [reflexivity| |reflexivity].
  apply (tvgIdAttribute_absent _ _ (eq_refl : includes (trim (lit "#EXTINF:-1,TF1")) (lit "tvg-id=" ++ [34]) = false) Hid).
Defined.



(** * Further properties *)

(** ** levenshteinDistance *)

(** ** Edit scripts *)

Lemma edits_snoc_keep c s t n : edits s t n -> edits (s ++ [c]) (t ++ [c]) n.
Proof.
  induction 1; simpl; try (by constructor).
  apply edits_keep, edits_nil.
Qed.

Lemma edits_snoc_subst c d s t n :
  edits s t n -> edits (s ++ [c]) (t ++ [d]) (S n).
Proof.
  induction 1; simpl; try (by constructor).
  apply edits_subst, edits_nil.
Qed.

Lemma edits_snoc_delete c s t n : edits s t n -> edits (s ++ [c]) t (S n).
Proof.
  induction 1; simpl; try (by constructor).
  apply edits_delete, edits_nil.
Qed.

Lemma edits_snoc_insert d s t n : edits s t n -> edits s (t ++ [d]) (S n).
Proof.
  induction 1; simpl; try (by constructor).
  apply edits_insert, edits_nil.
Qed.

Lemma editsR_cons_keep c s t n : editsR s t n -> editsR (c :: s) (c :: t) n.
Proof.
  induction 1; rewrite ?app_comm_cons; try (by constructor).
  apply (editsR_keep c [] [] 0), editsR_nil.
Qed.

Lemma editsR_cons_subst c d s t n :
  editsR s t n -> editsR (c :: s) (d :: t) (S n).
Proof.
  induction 1; rewrite ?app_comm_cons; try (by constructor).
  apply (editsR_subst c d [] [] 0), editsR_nil.
Qed.

Lemma editsR_cons_delete c s t n : editsR s t n -> editsR (c :: s) t (S n).
Proof.
  induction 1; rewrite ?app_comm_cons; try (by constructor).
  apply (editsR_delete c [] [] 0), editsR_nil.
Qed.

Lemma editsR_cons_insert d s t n : editsR s t n -> editsR s (d :: t) (S n).
Proof.
  induction 1; rewrite ?app_comm_cons; try (by constructor).
  apply (editsR_insert d [] [] 0), editsR_nil.
Qed.

Lemma edits_editsR s t n : edits s t n -> editsR s t n.
Proof.
  induction 1;
    eauto using editsR_nil, editsR_cons_keep, editsR_cons_subst,
      editsR_cons_delete, editsR_cons_insert.
Qed.

(** ** The recurrence is the least number of edits *)

Section DistEdits.
Variables str1 str2 : list N.
Abbreviation D := (dist str1 str2).

Lemma min3_le a b c : (min3 a b c <= a /\ min3 a b c <= b /\ min3 a b c <= c)%nat.
Proof. unfold min3. lia. Qed.

Lemma min3_cases a b c : min3 a b c = a \/ min3 a b c = b \/ min3 a b c = c.
Proof. unfold min3. lia. Qed.

Lemma dist_row0 j : D 0 j = j.
Proof. reflexivity. Qed.

(** Moving one step in the table changes the distance by at most one. *)
Lemma dist_lipschitz n :
  forall i j, (i + j <= n)%nat ->
    (D i j <= D (S i) j + 1 /\ D i j <= D i (S j) + 1
     /\ D (S i) j <= D i j + 1 /\ D i (S j) <= D i j + 1)%nat.
Proof.
  induction n as [|n IH]; intros i j Hij.
  - assert (i = 0%nat) as -> by lia. assert (j = 0%nat) as -> by lia.
    rewrite ?dist_col0, ?dist_row0. lia.
  - split_and!.
    + destruct j as [|j]; [rewrite !dist_col0; lia|].
      destruct (IH i j ltac:(lia)) as (Ha & Hb & Hc & Hd).
      rewrite (dist_step _ _ i j). destruct (strEq _ _); [lia|].
      destruct (min3_cases (D i j + 1) (D (S i) j + 1) (D i (S j) + 1))
        as [H|[H|H]]; rewrite H; lia.
    + destruct i as [|i]; [rewrite !dist_row0; lia|].
      destruct (IH i j ltac:(lia)) as (Ha & Hb & Hc & Hd).
      rewrite (dist_step _ _ i j). destruct (strEq _ _); [lia|].
      destruct (min3_cases (D i j + 1) (D (S i) j + 1) (D i (S j) + 1))
        as [H|[H|H]]; rewrite H; lia.
    + destruct j as [|j]; [rewrite !dist_col0; lia|].
      destruct (IH i j ltac:(lia)) as (Ha & Hb & Hc & Hd).
      rewrite (dist_step _ _ i j). destruct (strEq _ _); [lia|].
      pose proof (min3_le (D i j + 1) (D (S i) j + 1) (D i (S j) + 1)). lia.
    + destruct i as [|i]; [rewrite !dist_row0; lia|].
      destruct (IH i j ltac:(lia)) as (Ha & Hb & Hc & Hd).
      rewrite (dist_step _ _ i j). destruct (strEq _ _); [lia|].
      pose proof (min3_le (D i j + 1) (D (S i) j + 1) (D i (S j) + 1)). lia.
Qed.

Lemma dist_diag_le i j : (D (S i) (S j) <= D i j + 1)%nat.
Proof.
  rewrite dist_step. destruct (strEq _ _); [lia|].
  pose proof (min3_le (D i j + 1) (D (S i) j + 1) (D i (S j) + 1)). lia.
Qed.

Lemma charAt_eq i j c d :
  str2 !! i = Some c -> str1 !! j = Some d ->
  strEq (charAt str2 i) (charAt str1 j) = bool_decide (c = d).
Proof.
  intros Hc Hd. unfold strEq, charAt. rewrite Hc, Hd.
  apply bool_decide_ext. split; [by intros [= ->]|by intros ->].
Qed.

(** Every value of the table is reached by an edit script. *)
Lemma dist_edits i j :
  (i <= length str2)%nat -> (j <= length str1)%nat ->
  edits (take i str2) (take j str1) (D i j).
Proof.
  revert j. induction i as [|i IHi]; intros j Hi Hj.
  - rewrite dist_row0, take_0. clear Hi.
    induction j as [|j IHj]; [rewrite take_0; constructor|].
    destruct (lookup_lt_is_Some_2 str1 j ltac:(lia)) as [d Hd].
    rewrite (take_S_r _ _ _ Hd). apply edits_snoc_insert, IHj. lia.
  - destruct (lookup_lt_is_Some_2 str2 i ltac:(lia)) as [c Hc].
    induction j as [|j IHj].
    + rewrite dist_col0, take_0, (take_S_r _ _ _ Hc).
      apply edits_snoc_delete.
      specialize (IHi 0%nat ltac:(lia) ltac:(lia)).
      by rewrite dist_col0, take_0 in IHi.
    + destruct (lookup_lt_is_Some_2 str1 j ltac:(lia)) as [d Hd].
      rewrite dist_step, (charAt_eq _ _ _ _ Hc Hd).
      rewrite (take_S_r _ _ _ Hc), (take_S_r _ _ _ Hd).
      case_bool_decide as Hcd.
      * subst d. apply edits_snoc_keep, IHi; lia.
      * destruct (min3_cases (D i j + 1) (D (S i) j + 1) (D i (S j) + 1))
          as [H|[H|H]]; rewrite H, Nat.add_1_r.
        -- apply edits_snoc_subst, IHi; lia.
        -- apply edits_snoc_insert. rewrite <- (take_S_r _ _ _ Hc).
           apply IHj. lia.
        -- apply edits_snoc_delete. rewrite <- (take_S_r _ _ _ Hd).
           apply IHi; lia.
Qed.

Lemma snoc_take_inv (l s : list N) (c : N) (i : nat) :
  (i <= length l)%nat -> s ++ [c] = take i l ->
  exists i', i = S i' /\ s = take i' l /\ l !! i' = Some c.
Proof.
  intros Hi Hs. destruct i as [|i].
  - rewrite take_0 in Hs. by destruct s.
  - exists i. split; [done|].
    destruct (lookup_lt_is_Some_2 l i ltac:(lia)) as [d Hd].
    rewrite (take_S_r _ _ _ Hd) in Hs.
    apply app_inj_tail in Hs as [-> ->]. done.
Qed.

(** No edit script is shorter than the value of the table. *)
Lemma editsR_dist s t n :
  editsR s t n ->
  forall i j, (i <= length str2)%nat -> (j <= length str1)%nat ->
    s = take i str2 -> t = take j str1 -> (D i j <= n)%nat.
Proof.
  induction 1 as [|c s t n _ IH|c d s t n _ IH|c s t n _ IH|d s t n _ IH];
    intros i j Hi Hj Hs Ht.
  - symmetry in Hs, Ht.
    apply (f_equal length) in Hs, Ht. rewrite length_take in Hs, Ht.
    simpl in Hs, Ht.
    assert (i = 0%nat) as -> by lia. assert (j = 0%nat) as -> by lia. done.
  - apply snoc_take_inv in Hs as (i' & -> & -> & Hc); [|done].
    apply snoc_take_inv in Ht as (j' & -> & -> & Hd); [|done].
    rewrite dist_step, (charAt_eq _ _ _ _ Hc Hd).
    rewrite bool_decide_eq_true_2 by done. apply IH; (lia || done).
  - apply snoc_take_inv in Hs as (i' & -> & -> & Hc); [|done].
    apply snoc_take_inv in Ht as (j' & -> & -> & Hd); [|done].
    pose proof (dist_diag_le i' j').
    specialize (IH i' j' ltac:(lia) ltac:(lia) eq_refl eq_refl). lia.
  - apply snoc_take_inv in Hs as (i' & -> & -> & Hc); [|done].
    destruct (dist_lipschitz (i' + j) i' j ltac:(lia)) as (_ & _ & Hc' & _).
    specialize (IH i' j ltac:(lia) ltac:(lia) eq_refl Ht). lia.
  - apply snoc_take_inv in Ht as (j' & -> & -> & Hd); [|done].
    destruct (dist_lipschitz (i + j') i j' ltac:(lia)) as (_ & _ & _ & Hd').
    specialize (IH i j' ltac:(lia) ltac:(lia) Hs eq_refl). lia.
Qed.
End DistEdits.

Lemma edits_refl s : edits s s 0.
Proof. induction s; by constructor. Qed.

Lemma edits_zero s t n : edits s t n -> n = 0%nat -> s = t.
Proof. induction 1; intros Hn; try done. f_equal. by apply IHedits. Qed.

Lemma edits_length s t n :
  edits s t n -> (length s <= length t + n /\ length t <= length s + n)%nat.
Proof. induction 1; simpl; lia. Qed.

(** Edit scripts compose. *)
Lemma edits_trans s t n :
  edits s t n ->
  forall u m, edits t u m -> exists k, (k <= n + m)%nat /\ edits s u k.
Proof.
  induction 1 as [|c s t n _ IH|c d s t n _ IH|c s t n _ IH|d s t n _ IH];
    intros u m Hu.
  - exists m. done.
  - remember (c :: t) as t0 eqn:Ht0. revert Ht0.
    induction Hu as [|c' t' u m Hu _|c' d' t' u m Hu _|c' t' u m Hu _
                    |d' t' u m Hu IHu]; intros Ht0.
    + done.
    + injection Ht0 as -> ->. destruct (IH _ _ Hu) as (k & Hk & He).
      exists k. split; [lia|by constructor].
    + injection Ht0 as -> ->. destruct (IH _ _ Hu) as (k & Hk & He).
      exists (S k). split; [lia|by constructor].
    + injection Ht0 as -> ->. destruct (IH _ _ Hu) as (k & Hk & He).
      exists (S k). split; [lia|by constructor].
    + destruct (IHu Ht0) as (k & Hk & He).
      exists (S k). split; [lia|by constructor].
  - remember (d :: t) as t0 eqn:Ht0. revert Ht0.
    induction Hu as [|c' t' u m Hu _|c' d' t' u m Hu _|c' t' u m Hu _
                    |d' t' u m Hu IHu]; intros Ht0.
    + done.
    + injection Ht0 as -> ->. destruct (IH _ _ Hu) as (k & Hk & He).
      exists (S k). split; [lia|by constructor].
    + injection Ht0 as -> ->. destruct (IH _ _ Hu) as (k & Hk & He).
      exists (S k). split; [lia|by constructor].
    + injection Ht0 as -> ->. destruct (IH _ _ Hu) as (k & Hk & He).
      exists (S k). split; [lia|by constructor].
    + destruct (IHu Ht0) as (k & Hk & He).
      exists (S k). split; [lia|by constructor].
  - destruct (IH _ _ Hu) as (k & Hk & He).
    exists (S k). split; [lia|by constructor].
  - remember (d :: t) as t0 eqn:Ht0. revert Ht0.
    induction Hu as [|c' t' u m Hu _|c' d' t' u m Hu _|c' t' u m Hu _
                    |d' t' u m Hu IHu]; intros Ht0.
    + done.
    + injection Ht0 as -> ->. destruct (IH _ _ Hu) as (k & Hk & He).
      exists (S k). split; [lia|by constructor].
    + injection Ht0 as -> ->. destruct (IH _ _ Hu) as (k & Hk & He).
      exists (S k). split; [lia|by constructor].
    + injection Ht0 as -> ->. destruct (IH _ _ Hu) as (k & Hk & He).
      exists k. split; [lia|done].
    + destruct (IHu Ht0) as (k & Hk & He).
      exists (S k). split; [lia|by constructor].
Qed.

Lemma lev_edits (s t : list N) : edits t s (levenshteinDistance s t).
Proof.
  rewrite levenshteinDistance_dist.
  rewrite <- (firstn_all t) at 1. rewrite <- (firstn_all s) at 1.
  by apply dist_edits.
Qed.

Lemma lev_least (s t : list N) n :
  edits t s n -> (levenshteinDistance s t <= n)%nat.
Proof.
  intros Hn. rewrite levenshteinDistance_dist. apply edits_editsR in Hn.
  apply (editsR_dist s t _ _ _ Hn); try done; by rewrite firstn_all.
Qed.

(** X1.  [levenshteinDistance str1 str2] is the least number of
    single-code-unit insertions, deletions and substitutions that turn
    [str2] into [str1]: some edit script has that length and none is
    shorter. *)
Theorem levenshteinDistance_least_edits (str1 str2 : list N) :
  edits str2 str1 (levenshteinDistance str1 str2)
  /\ forall n, edits str2 str1 n -> (levenshteinDistance str1 str2 <= n)%nat.
Proof. split; [apply lev_edits|apply lev_least]. Qed.

Lemma lev_zero_eq (s t : list N) : levenshteinDistance s t = 0%nat -> s = t.
Proof. intros H0. symmetry. apply (edits_zero _ _ _ (lev_edits s t) H0). Qed.

Lemma lev_lower (s t : list N) :
  (length s - length t <= levenshteinDistance s t)%nat.
Proof. pose proof (edits_length _ _ _ (lev_edits s t)). lia. Qed.

(** X2.  The distance is zero exactly between equal strings. *)
Theorem levenshteinDistance_zero (s t : list N) :
  levenshteinDistance s t = 0%nat <-> s = t.
Proof.
  split.
  - intros H0. symmetry. apply (edits_zero _ _ _ (lev_edits s t) H0).
  - intros ->. pose proof (lev_least t t 0 (edits_refl t)). lia.
Qed.

(** X3.  The distance is at least the difference of the lengths and at
    most the greater length; against the empty string it is the length. *)
Theorem levenshteinDistance_bounds (s t : list N) :
  (length s - length t <= levenshteinDistance s t)%nat
  /\ (length t - length s <= levenshteinDistance s t)%nat
  /\ (levenshteinDistance s t <= Nat.max (length s) (length t))%nat
  /\ levenshteinDistance s [] = length s
  /\ levenshteinDistance [] t = length t.
Proof.
  assert (Hlow : forall a b : list N,
    (length a - length b <= levenshteinDistance a b
     /\ length b - length a <= levenshteinDistance a b)%nat).
  { intros a b. pose proof (edits_length _ _ _ (lev_edits a b)). lia. }
  pose proof (Hlow s t). pose proof (Hlow s []). pose proof (Hlow [] t).
  pose proof (levenshteinDistance_le s t).
  pose proof (levenshteinDistance_le s []).
  pose proof (levenshteinDistance_le [] t).
  simpl in *. lia.
Qed.

(** X4.  The triangle inequality. *)
Theorem levenshteinDistance_triangle (s t u : list N) :
  (levenshteinDistance s u
   <= levenshteinDistance s t + levenshteinDistance t u)%nat.
Proof.
  destruct (edits_trans _ _ _ (lev_edits t u) _ _ (lev_edits s t))
    as (k & Hk & He).
  apply lev_least in He. lia.
Qed.

(** ** normalize *)

Lemma isAlnum_lowerUnit (c : N) : isAlnum c = true -> lowerUnit c = [c].
Proof.
  unfold isAlnum, lowerUnit, between. intros Hc.
  destruct (N.leb_spec 65 c), (N.leb_spec c 90), (N.leb_spec 97 c),
    (N.leb_spec c 122), (N.leb_spec 48 c), (N.leb_spec c 57);
    simpl in *; try done; try lia.
  all: destruct (N.eqb_spec c 304); [lia|].
  all: destruct (N.eqb_spec c 8490); [lia|done].
Qed.

Lemma normalize_alnum (s : list N) : Forall (fun c => isAlnum c = true) (normalize s).
Proof.
  unfold normalize. apply Forall_forall. intros c Hc.
  apply list_elem_of_In, filter_In in Hc. tauto.
Qed.

Lemma normalize_fixed (s : list N) :
  Forall (fun c => isAlnum c = true) s -> normalize s = s.
Proof.
  induction 1 as [|c s Hc _ IH]; [done|].
  unfold normalize, toLowerCase in *. cbn [flat_map].
  rewrite (isAlnum_lowerUnit c Hc). simpl. by rewrite Hc, IH.
Qed.

(** X5.  What [normalize] returns holds only code units of [a-z0-9], and
    normalising it again changes nothing. *)
Theorem normalize_idempotent (s : list N) :
  Forall (fun c => isAlnum c = true) (normalize s)
  /\ normalize (normalize s) = normalize s.
Proof.
  split; [apply normalize_alnum|apply normalize_fixed, normalize_alnum].
Qed.

Lemma normalize_app (s t : list N) :
  normalize (s ++ t) = normalize s ++ normalize t.
Proof.
  unfold normalize, toLowerCase. by rewrite flat_map_app, List.filter_app.
Qed.

(** X6.  [normalize] does not see the case of ASCII letters, and does not
    see a code unit that is neither an ASCII letter or digit nor one of
    the two code units whose lower-case form holds an ASCII letter. *)
Theorem normalize_insensitive (s t : list N) (c : N) :
  (between 65 90 c = true ->
   normalize (s ++ c :: t) = normalize (s ++ (c + 32) :: t))
  /\ (isAlnum c = false -> between 65 90 c = false ->
      c <> 304 -> c <> 8490 ->
      normalize (s ++ c :: t) = normalize (s ++ t)).
Proof.
  split.
  - intros Hc. rewrite !normalize_app. f_equal.
    change (c :: t) with ([c] ++ t). change ((c + 32) :: t) with ([c + 32] ++ t).
    rewrite !normalize_app. f_equal.
    unfold normalize, toLowerCase. cbn [flat_map]. rewrite !app_nil_r.
    unfold lowerUnit at 1. rewrite Hc.
    unfold between in Hc. apply andb_true_iff in Hc as [H1 H2].
    apply N.leb_le in H1, H2.
    assert (Hlow : isAlnum (c + 32) = true).
    { unfold isAlnum, between.
      destruct (N.leb_spec 97 (c + 32)), (N.leb_spec (c + 32) 122);
        (lia || done). }
    by rewrite (isAlnum_lowerUnit _ Hlow).
  - intros Halnum Hupper H304 H8490. rewrite !normalize_app. f_equal.
    change (c :: t) with ([c] ++ t). rewrite normalize_app.
    unfold normalize at 1, toLowerCase. cbn [flat_map]. rewrite app_nil_r.
    unfold lowerUnit. rewrite Hupper.
    destruct (N.eqb_spec c 304); [done|].
    destruct (N.eqb_spec c 8490); [done|].
    simpl. by rewrite Halnum.
Qed.

(** ** fuzzyMatch *)

Lemma strEq_false (s t : list N) : strEq s t = false <-> s <> t.
Proof. unfold strEq. apply bool_decide_eq_false. Qed.

Lemma longer_shorter_eq (s1 s2 : list N) :
  longerOf s1 s2 = shorterOf s1 s2 -> s1 = s2.
Proof. unfold longerOf, shorterOf. by destruct (_ <? _)%nat. Qed.

Lemma ratio_eq_1 (len dist : nat) :
  (0 < len)%nat -> (ratio len dist == 1)%Q <-> dist = 0%nat.
Proof.
  intros Hlen. rewrite ratio_eq by done.
  unfold Qeq. cbn [Qnum Qden].
  rewrite <- (Nat2Pos.id len) at 1 by lia.
  rewrite positive_nat_Z. lia.
Qed.

(** A score of 1 is only given to equal normalised names. *)
Lemma fuzzyMatch_one_inv (a b : list N) :
  (fuzzyMatch a b == 1)%Q -> normalize a = normalize b.
Proof.
  unfold fuzzyMatch; cbv zeta.
  set (s1 := normalize a). set (s2 := normalize b).
  destruct (strEq s1 s2) eqn:Heq; [intros _; by apply strEq_true in Heq|].
  destruct (includes s1 s2 || includes s2 s1); [done|].
  destruct (Nat.eqb_spec (length (longerOf s1 s2)) 0) as [H0|H0].
  - intros _.
    assert (length s1 = 0%nat /\ length s2 = 0%nat) as [H1 H2].
    { unfold longerOf in H0.
      destruct (Nat.ltb_spec (length s2) (length s1)); lia. }
    destruct s1, s2; done.
  - rewrite ratio_eq_1 by lia.
    intros Hd%lev_zero_eq. by apply longer_shorter_eq.
Qed.

(** X7.  The score is 1 exactly when the normalised names are equal. *)
Theorem fuzzyMatch_one_iff (a b : list N) :
  (fuzzyMatch a b == 1)%Q <-> normalize a = normalize b.
Proof.
  split; [apply fuzzyMatch_one_inv|].
  intros Heq. unfold fuzzyMatch; cbv zeta. rewrite Heq.
  by rewrite (proj2 (strEq_true _ _) eq_refl).
Qed.

(** Against a name whose normalised form is empty every score is above
    the threshold. *)
Lemma fuzzyMatch_blank_accepted (a b : list N) :
  normalize b = [] -> (6 # 10 < fuzzyMatch a b)%Q.
Proof.
  intros Hb. unfold fuzzyMatch; cbv zeta. rewrite Hb.
  destruct (strEq (normalize a) []); [reflexivity|].
  by rewrite includes_nil.
Qed.

(** X8.  A name whose normalised form is empty scores 0.8 against every
    name whose normalised form is not, on either side, and 1 against
    another such name. *)
Theorem fuzzyMatch_empty_form_score (a b : list N) :
  normalize b = [] ->
  (normalize a = [] -> fuzzyMatch a b = 1%Q /\ fuzzyMatch b a = 1%Q)
  /\ (normalize a <> [] ->
      fuzzyMatch a b = (8 # 10)%Q /\ fuzzyMatch b a = (8 # 10)%Q).
Proof.
  intros Hb. unfold fuzzyMatch; cbv zeta. rewrite Hb. split.
  - intros ->. done.
  - intros Ha.
    assert (H1 : strEq (normalize a) [] = false) by by apply strEq_false.
    assert (H2 : strEq [] (normalize a) = false) by by apply strEq_false.
    rewrite H1, H2, includes_nil, orb_true_r. simpl. done.
Qed.

Lemma includes_refl (s : list N) : includes s s = true.
Proof. apply includes_spec. exists [], []. by rewrite app_nil_r. Qed.

Lemma ratio_gt_06 (len dist : nat) :
  (0 < len)%nat ->
  gt (ratio len dist) (6 # 10) = true <-> (5 * dist < 2 * len)%nat.
Proof.
  intros Hlen. rewrite gt_true.
  assert (Hr := ratio_eq len dist Hlen).
  rewrite Hr. unfold Qlt. cbn [Qnum Qden].
  assert (Hpos : Z.pos (Pos.of_nat len) = Z.of_nat len)
    by (rewrite <- positive_nat_Z, Nat2Pos.id; lia).
  rewrite Hpos. lia.
Qed.

(** X9.  When neither normalised name occurs in the other, the pair is
    accepted exactly when five times the edit distance is less than twice
    the longer length; this needs the shorter form to be longer than
    three fifths of the longer one. *)
Theorem fuzzyMatch_accept_edit (a b : list N) :
  includes (normalize a) (normalize b) = false ->
  includes (normalize b) (normalize a) = false ->
  (gt (fuzzyMatch a b) (6 # 10) = true <->
     (5 * levenshteinDistance (longerOf (normalize a) (normalize b))
                              (shorterOf (normalize a) (normalize b))
      < 2 * length (longerOf (normalize a) (normalize b)))%nat)
  /\ (gt (fuzzyMatch a b) (6 # 10) = true ->
      (3 * length (longerOf (normalize a) (normalize b))
       < 5 * length (shorterOf (normalize a) (normalize b)))%nat).
Proof.
  intros H12 H21. unfold fuzzyMatch; cbv zeta.
  set (s1 := normalize a) in *. set (s2 := normalize b) in *.
  assert (Hne : strEq s1 s2 = false).
  { apply strEq_false. intros E. rewrite E, includes_refl in H12. done. }
  rewrite Hne, H12, H21. cbn [orb].
  assert (Hlen : (0 < length (longerOf s1 s2))%nat).
  { unfold longerOf. destruct (Nat.ltb_spec (length s2) (length s1)); [lia|].
    destruct s2; [|simpl; lia]. by rewrite includes_nil in H12. }
  destruct (Nat.eqb_spec (length (longerOf s1 s2)) 0) as [H0|_]; [lia|].
  rewrite ratio_gt_06 by done. split; [done|].
  intros Hacc.
  pose proof (lev_lower (longerOf s1 s2) (shorterOf s1 s2)).
  rewrite longerOf_length, shorterOf_length in *. lia.
Qed.

(** ** matchChannels *)

Section MatchExtras.
Local Open Scope Q_scope.

(** X10.  With an empty EPG list every playlist channel is unmatched, in
    input order. *)
Theorem matchChannels_no_epg (ps : list PlaylistChannel) :
  matchChannels ps [] = ([], ps).
Proof.
  rewrite matchChannels_omap. f_equal.
  - induction ps as [|p ps IH]; [done|]. cbn [omap list_omap].
    by change (matchFor [] p) with (@None MatchResult).
  - induction ps as [|p ps IH]; [done|]. cbn [List.filter].
    change (matched [] p) with false. cbn [negb]. by rewrite IH.
Qed.

(** X11.  Channels are matched one by one: matching a concatenation of two
    playlists gives the concatenation of the two results. *)
Theorem matchChannels_app (ps1 ps2 : list PlaylistChannel)
    (es : list EpgChannel) :
  matchChannels (ps1 ++ ps2) es
  = ((matchChannels ps1 es).1 ++ (matchChannels ps2 es).1,
     (matchChannels ps1 es).2 ++ (matchChannels ps2 es).2).
Proof.
  rewrite !matchChannels_omap. cbn [fst snd].
  by rewrite omap_app, List.filter_app.
Qed.

Lemma fuzzyMatch_le_1 (a b : list N) : fuzzyMatch a b <= 1.
Proof.
  unfold fuzzyMatch; cbv zeta.
  destruct (strEq _ _); [done|]. destruct (_ || _); [done|].
  destruct (Nat.eqb_spec (length (longerOf (normalize a) (normalize b))) 0);
    [done|].
  apply ratio_bounds; [lia|apply editDistance_le_longer].
Qed.

Lemma findBest_some_iff p es :
  matched es p = true <->
  exists e, e ∈ es /\ 6 # 10 < fuzzyMatch (name p) (displayName e).
Proof.
  unfold matched. pose proof (findBest_bestOf p es) as Hbest.
  destruct (findBest p es) as [[e|] s]; simpl in Hbest.
  - destruct Hbest as (Hs & Heq & pre & post & -> & _).
    split; [intros _|done]. exists e. split; [|by rewrite <- Heq].
    apply elem_of_app. right. apply elem_of_cons. by left.
  - destruct Hbest as [_ Hnone]. split; [done|].
    intros (e & He & Hs). by apply Hnone in He.
Qed.

(** X12.  An EPG channel whose display name has an empty normalised form
    leaves no playlist channel unmatched. *)
Theorem matchChannels_blank_epg_name (ps : list PlaylistChannel)
    (es : list EpgChannel) (e : EpgChannel) :
  e ∈ es -> normalize (displayName e) = [] ->
  (matchChannels ps es).2 = [].
Proof.
  intros He Hblank. rewrite matchChannels_omap. cbn [snd].
  induction ps as [|p ps IH]; [done|]. cbn [List.filter].
  assert (Hm : matched es p = true).
  { apply findBest_some_iff. exists e. split; [done|].
    by apply fuzzyMatch_blank_accepted. }
  by rewrite Hm.
Qed.

(** X13.  A playlist channel whose normalised name equals the normalised
    display name of some EPG channel is matched, with score 1, to the
    first such EPG channel. *)
Theorem matchChannels_exact_name (p : PlaylistChannel)
    (pre post : list EpgChannel) (e : EpgChannel) :
  normalize (name p) = normalize (displayName e) ->
  (forall e', e' ∈ pre -> normalize (name p) <> normalize (displayName e')) ->
  matchFor (pre ++ e :: post) p = Some (toMatch p e 1)
  /\ forall ps, p ∈ ps -> toMatch p e 1 ∈ (matchChannels ps (pre ++ e :: post)).1.
Proof.
  intros Heq Hpre.
  assert (Hmatch : matchFor (pre ++ e :: post) p = Some (toMatch p e 1)).
  { unfold matchFor.
    pose proof (findBest_bestOf p (pre ++ e :: post)) as Hbest.
    assert (He1 : fuzzyMatch (name p) (displayName e) = 1).
    { unfold fuzzyMatch; cbv zeta. rewrite Heq.
      by rewrite (proj2 (strEq_true _ _) eq_refl). }
    destruct (findBest p (pre ++ e :: post)) as [[e0|] s]; simpl in Hbest.
    - destruct Hbest as (Hs & Hs0 & pre0 & post0 & Hes & Hbefore & Hafter).
      assert (Hs1 : s == 1).
      { apply Qle_antisym; [rewrite Hs0; apply fuzzyMatch_le_1|].
        assert (He : e ∈ pre0 ++ e0 :: post0).
        { rewrite <- Hes. apply elem_of_app. right. apply elem_of_cons. by left. }
        apply elem_of_app in He as [He|He%elem_of_cons].
        - specialize (Hbefore _ He). rewrite He1 in Hbefore. lra.
        - destruct He as [->|He]; [rewrite Hs0, He1; lra|].
          specialize (Hafter _ He). by rewrite He1 in Hafter. }
      assert (Hn0 : normalize (name p) = normalize (displayName e0)).
      { apply fuzzyMatch_one_inv. by rewrite <- Hs0. }
      assert (Hs' : s = 1).
      { rewrite Hs0. unfold fuzzyMatch; cbv zeta. rewrite Hn0.
        by rewrite (proj2 (strEq_true _ _) eq_refl). }
      subst s.
      assert (Hlen : length pre0 = length pre).
      { destruct (Nat.lt_trichotomy (length pre0) (length pre))
          as [Hlt|[?|Hlt]]; [|done|]; exfalso.
        - assert (Hl : (pre ++ e :: post) !! length pre0 = Some e0).
          { rewrite Hes. by rewrite list_lookup_middle. }
          rewrite lookup_app_l in Hl by done.
          apply list_elem_of_lookup_2 in Hl. by apply (Hpre e0).
        - assert (Hl : (pre0 ++ e0 :: post0) !! length pre = Some e).
          { rewrite <- Hes. by rewrite list_lookup_middle. }
          rewrite lookup_app_l in Hl by done.
          apply list_elem_of_lookup_2, Hbefore in Hl.
          rewrite He1, Hs' in Hl. lra. }
      assert (e0 = e) as ->.
      { assert (Hl : (pre ++ e :: post) !! length pre0 = Some e0).
        { rewrite Hes. by rewrite list_lookup_middle. }
        rewrite Hlen, list_lookup_middle in Hl by done. congruence. }
      by rewrite He1.
    - destruct Hbest as [_ Hnone]. exfalso. apply (Hnone e).
      + apply elem_of_app. right. apply elem_of_cons. by left.
      + rewrite He1. reflexivity. }
  split; [done|].
  intros ps Hp. rewrite matchChannels_omap. cbn [fst].
  apply list_elem_of_omap. by exists p.
Qed.

(** X14.  Adding EPG channels at the end never loses a match and never
    lowers its score. *)
Theorem findBest_more_epg (p : PlaylistChannel) (es es' : list EpgChannel)
    (e : EpgChannel) (s : Q) :
  findBest p es = (Some e, s) ->
  exists e' s', findBest p (es ++ es') = (Some e', s') /\ s <= s'.
Proof.
  intros Hbest.
  pose proof (findBest_bestOf p es) as H1. rewrite Hbest in H1.
  destruct H1 as (Hs & Hs0 & pre & post & Hes & _).
  pose proof (findBest_bestOf p (es ++ es')) as H2.
  assert (He : e ∈ es ++ es').
  { rewrite Hes, <- app_assoc. apply elem_of_app. right.
    apply elem_of_cons. by left. }
  destruct (findBest p (es ++ es')) as [[e'|] s']; simpl in H2.
  - exists e', s'. split; [done|].
    destruct H2 as (_ & Hs0' & pre' & post' & Hes' & Hbefore & Hafter).
    rewrite Hes' in He.
    apply elem_of_app in He as [He|He%elem_of_cons].
    + specialize (Hbefore _ He). rewrite <- Hs0 in Hbefore. lra.
    + destruct He as [->|He]; [rewrite Hs0, Hs0'; lra|].
      specialize (Hafter _ He). by rewrite <- Hs0 in Hafter.
  - destruct H2 as [_ Hnone]. exfalso. apply (Hnone e He). by rewrite <- Hs0.
Qed.

End MatchExtras.

(** ** trim *)

Lemma dropWhile_id (p : N -> bool) (s : list N) :
  (forall c, head s = Some c -> p c = false) -> dropWhile p s = s.
Proof.
  destruct s as [|c s]; [done|]. intros H. simpl. by rewrite (H c eq_refl).
Qed.

Lemma head_rev {A} (l : list A) : head (rev l) = last l.
Proof. rewrite <- (rev_involutive l) at 2. by rewrite last_rev. Qed.

Lemma trim_id (s : list N) :
  (forall c, head s = Some c -> isSpace c = false) ->
  (forall c, last s = Some c -> isSpace c = false) ->
  trim s = s.
Proof.
  intros Hh Hl. unfold trim, trimEnd, trimStart.
  rewrite (dropWhile_id _ s Hh).
  rewrite dropWhile_id; [apply rev_involutive|].
  intros c. rewrite head_rev. apply Hl.
Qed.

Lemma trim_idem (s : list N) : trim (trim s) = trim s.
Proof.
  apply trim_id; intros c Hc; apply (trim_ends s); ((by left) || (by right)).
Qed.

Lemma trimmed_ends (s : list N) :
  trimmed s ->
  (exists c, head s = Some c /\ isSpace c = false)
  /\ (exists c, last s = Some c /\ isSpace c = false).
Proof.
  intros [Hne Htrim]. split.
  - destruct s as [|c s]; [done|]. exists c. split; [done|].
    apply (trim_ends (c :: s)). left. by rewrite Htrim.
  - destruct (last s) as [c|] eqn:Hl.
    + exists c. split; [done|]. apply (trim_ends s). right. by rewrite Htrim.
    + apply last_None in Hl. done.
Qed.

(** ** parseM3U as a scan of the lines *)

Lemma entries_filter (pre lines : list (list N)) :
  recordAt (pre ++ lines)
    <$> List.filter (qualifies (pre ++ lines)) (seq (length pre) (length lines))
  = entries lines.
Proof.
  revert pre. induction lines as [|raw rest IH]; intros pre; [done|].
  cbn [length seq List.filter entries].
  specialize (IH (pre ++ [raw])).
  rewrite <- app_assoc, length_app, Nat.add_1_r in IH. cbn [app] in IH.
  assert (Hq : qualifies (pre ++ raw :: rest) (length pre)
               = startsWith (trim raw) EXTINF
                 && (truthy (nameOf (trim raw))
                     && truthy (match rest with
                                | next :: _ => trim next
                                | [] => []
                                end))).
  { unfold qualifies; cbv zeta.
    rewrite (list_lookup_total_correct _ _ raw) by apply list_lookup_middle, eq_refl.
    rewrite urlAt_lookup.
    replace ((pre ++ raw :: rest) !! (length pre + 1)%nat) with (head rest); [by destruct rest|].
    rewrite lookup_app_r by lia.
    replace (length pre + 1 - length pre)%nat with 1%nat by lia.
    by destruct rest. }
  rewrite Hq.
  destruct (startsWith (trim raw) EXTINF && _) eqn:Hc; cbn [fmap list_fmap app];
    rewrite <- IH; [|done].
  f_equal. unfold recordAt; cbv zeta.
  rewrite (list_lookup_total_correct _ _ raw) by apply list_lookup_middle, eq_refl.
  rewrite urlAt_lookup.
  replace ((pre ++ raw :: rest) !! (length pre + 1)%nat) with (head rest); [by destruct rest|].
  rewrite lookup_app_r by lia.
  replace (length pre + 1 - length pre)%nat with 1%nat by lia.
  by destruct rest.
Qed.

Lemma parseM3U_scan (content : list N) :
  parseM3U content = entries (splitLines content).
Proof. rewrite parseM3U_filter. apply (entries_filter []). Qed.

Lemma entries_skip (l : list N) (rest : list (list N)) :
  startsWith (trim l) EXTINF = false -> entries (l :: rest) = entries rest.
Proof. intros Hl. cbn [entries]. by rewrite Hl. Qed.

Lemma entries_block (d u : list N) (rest : list (list N)) :
  startsWith (trim d) EXTINF = true -> nameOf (trim d) <> [] -> goodUrl u ->
  entries (d :: u :: rest)
  = mkPlaylistChannel (nameOf (trim d)) (tvgIdOf (trim d)) u :: entries rest.
Proof.
  intros Hd Hname ([Hne Htrim] & _ & Hu).
  cbn [entries]. rewrite Hd, Htrim, Hu.
  rewrite (proj2 (truthy_true _) Hname), (proj2 (truthy_true _) Hne). done.
Qed.

(** ** The lines written by the emitters, read back *)

Lemma matchName_skip (pre rest : list N) :
  44 ∉ pre -> matchName (pre ++ rest) = matchName rest.
Proof.
  induction pre as [|c pre IH]; [done|].
  intros [Hc Hpre]%not_elem_of_cons. cbn [app matchName].
  destruct (N.eqb_spec c 44) as [->|_]; [done|]. by apply IH.
Qed.

Lemma matchName_here (name : list N) :
  forallb (fun x => negb (isLineTerminator x)) name = true ->
  matchName (44 :: name) = Some name.
Proof. intros H. cbn [matchName]. by rewrite H. Qed.

Lemma trim_glue (pre s : list N) (c : N) :
  head pre = Some c -> isSpace c = false -> trimmed s ->
  trim (pre ++ s) = pre ++ s.
Proof.
  intros Hpre Hc Hs. destruct (trimmed_ends s Hs) as [_ (d & Hd & Hsp)].
  apply trim_id.
  - intros c'. destruct pre; [done|]. simpl in *. congruence.
  - intros c'. rewrite last_app, Hd. congruence.
Qed.

Lemma extinfPlain_read (name : list N) :
  goodName name ->
  trim (extinfPlain name) = extinfPlain name
  /\ startsWith (extinfPlain name) EXTINF = true
  /\ nameOf (extinfPlain name) = name.
Proof.
  intros [Hname Hlt]. split_and!.
  - by apply (trim_glue _ _ 35).
  - reflexivity.
  - unfold nameOf, extinfPlain.
    change (lit "#EXTINF:-1,") with (lit "#EXTINF:-1" ++ [44]).
    rewrite <- app_assoc, matchName_skip; cbn [app].
    + rewrite matchName_here by done. apply Hname.
    + not_in_literal.
Qed.

Lemma extinfWithId_read (id name : list N) :
  goodName name -> 44 ∉ id ->
  trim (extinfWithId id name) = extinfWithId id name
  /\ startsWith (extinfWithId id name) EXTINF = true
  /\ nameOf (extinfWithId id name) = name.
Proof.
  intros [Hname Hlt] Hid. split_and!.
  - unfold extinfWithId. rewrite !app_assoc.
    apply (trim_glue _ _ 35); done.
  - reflexivity.
  - unfold nameOf, extinfWithId.
    rewrite !app_assoc, <- (app_assoc _ (lit ",") name).
    rewrite matchName_skip; [change (lit "," ++ name) with (44 :: name)|].
    + rewrite matchName_here by done. apply Hname.
    + rewrite !not_elem_of_app.
      split_and!; [not_in_literal..|done|not_in_literal].
Qed.

Lemma untilQuote_here (v rest : list N) :
  dq ∉ v -> untilQuote (v ++ dq :: rest) = Some v.
Proof.
  induction v as [|c v IH]; [done|].
  intros [Hc Hv]%not_elem_of_cons. cbn [app untilQuote].
  destruct (N.eqb_spec c dq) as [->|_]; [done|]. by rewrite IH.
Qed.

Lemma tvgIdOf_extinfWithId (id name : list N) :
  dq ∉ id -> tvgIdOf (extinfWithId id name) = id.
Proof.
  intros Hid. unfold tvgIdOf, extinfWithId.
  change (lit "#EXTINF:-1 tvg-id=") with (lit "#EXTINF:-1 " ++ lit "tvg-id=").
  rewrite <- !app_assoc.
  change (lit "#EXTINF:-1 " ++ ?r)
    with (35 :: 69 :: 88 :: 84 :: 73 :: 78 :: 70 :: 58 :: 45 :: 49 :: 32 :: r).
  do 11 (cbn [matchTvgId]; rewrite afterPrefix_None by reflexivity;
         cbn [mbind option_bind]).
  assert (Hpre : forall r, afterPrefix (lit "tvg-id=" ++ [dq])
                             (lit "tvg-id=" ++ [dq] ++ r) = Some r)
    by reflexivity.
  rewrite matchTvgId_unfold, Hpre. cbn [mbind option_bind].
  cbn [app]. by rewrite untilQuote_here.
Qed.

Lemma tvgIdOf_extinfPlain (name : list N) :
  includes name (lit "tvg-id=" ++ [dq]) = false ->
  tvgIdOf (extinfPlain name) = [].
Proof.
  intros Hname. unfold tvgIdOf, extinfPlain.
  change (lit "#EXTINF:-1," ++ name)
    with (35 :: 69 :: 88 :: 84 :: 73 :: 78 :: 70 :: 58 :: 45 :: 49 :: 44 :: name).
  do 11 (cbn [matchTvgId]; rewrite afterPrefix_None by reflexivity;
         cbn [mbind option_bind]).
  by rewrite matchTvgId_None.
Qed.

(** ** What parseM3U returns *)

Lemma matchName_no_terminator (s g : list N) :
  matchName s = Some g ->
  forallb (fun x => negb (isLineTerminator x)) g = true.
Proof.
  induction s as [|c s IH]; [done|]. cbn [matchName].
  destruct (c =? 44); cbn [andb]; [|apply IH].
  destruct (forallb _ s) eqn:Hs; [|apply IH]. by intros [= <-].
Qed.

Lemma forallb_sublist (p : N -> bool) (s t : list N) :
  s `sublist_of` t -> forallb p t = true -> forallb p s = true.
Proof.
  rewrite !forallb_forall. intros Hst Ht x Hx%list_elem_of_In.
  apply Ht, list_elem_of_In. by eapply elem_of_sublist.
Qed.

Lemma nameOf_good (line : list N) : nameOf line <> [] -> goodName (nameOf line).
Proof.
  unfold nameOf. destruct (matchName line) as [g|] eqn:Hg; [|done].
  intros Hne. split; [split; [done|apply trim_idem]|].
  eapply forallb_sublist; [apply trim_sublist|].
  by eapply matchName_no_terminator.
Qed.

Lemma tvgIdOf_no_dq (line : list N) : dq ∉ tvgIdOf line.
Proof.
  unfold tvgIdOf. induction line as [|c line IH].
  - vm_compute. apply not_elem_of_nil.
  - cbn [matchTvgId].
    destruct (afterPrefix _ (c :: line) ≫= untilQuote) as [g|] eqn:Hg; [|done].
    destruct (afterPrefix _ (c :: line)) as [r|]; [|done].
    by apply (untilQuote_no_dq r).
Qed.

(** X15.  Every channel returned by [parseM3U] has a non-empty name and a
    non-empty stream URL, both without white space at their ends; the
    name holds no line terminator, the URL no line feed, and the [tvgId]
    no double quote. *)
Theorem parseM3U_wellformed (content : list N) (p : PlaylistChannel) :
  p ∈ parseM3U content ->
  goodName (name p) /\ trimmed (streamUrl p) /\ (nl ∉ streamUrl p)
  /\ (dq ∉ tvgId p).
Proof.
  intros Hp. destruct (parseM3U_no_nl content p Hp) as [_ Hnl].
  rewrite parseM3U_filter in Hp.
  apply list_elem_of_fmap in Hp as (i & -> & Hi).
  apply list_elem_of_In, filter_In in Hi as [_ Hq].
  apply qualifies_spec in Hq as (raw & Hraw & _ & Hname & next & Hnext & Hurl).
  unfold recordAt in *; cbv zeta in *. cbn [name streamUrl tvgId] in *.
  rewrite (list_lookup_total_correct _ _ _ Hraw) in *.
  rewrite urlAt_lookup, Hnext in *.
  split_and!; [by apply nameOf_good|split; [done|apply trim_idem]|done
              |apply tvgIdOf_no_dq].
Qed.

(** The name and the stream URL of a parsed channel are read back from
    the lines written for it, unless the URL looks like a directive. *)
Lemma parsed_good (content : list N) (p : PlaylistChannel) :
  p ∈ parseM3U content -> startsWith (streamUrl p) EXTINF = false ->
  goodName (name p) /\ goodUrl (streamUrl p).
Proof.
  intros Hp Hu. destruct (parseM3U_no_nl content p Hp) as [_ Hnl].
  rewrite parseM3U_filter in Hp.
  apply list_elem_of_fmap in Hp as (i & -> & Hi).
  apply list_elem_of_In, filter_In in Hi as [_ Hq].
  apply qualifies_spec in Hq as (raw & Hraw & _ & Hname & next & Hnext & Hurl).
  unfold recordAt in *; cbv zeta in *. cbn [name streamUrl] in *.
  rewrite (list_lookup_total_correct _ _ _ Hraw) in *.
  rewrite urlAt_lookup, Hnext in *.
  split; [by apply nameOf_good|].
  split_and!; [split; [done|apply trim_idem]|done..].
Qed.

(** ** Reading back the corrected playlist *)

Lemma goodName_no_nl (s : list N) : goodName s -> nl ∉ s.
Proof.
  intros [_ Hlt] Hnl. rewrite forallb_forall in Hlt.
  apply list_elem_of_In, Hlt in Hnl. done.
Qed.

(** Entries of two lines each, a directive and a location, are read back
    one by one. *)
Lemma entries_two_lines {A} (d u nm : A -> list N) (l : list A)
    (rest : list (list N)) :
  (forall x, x ∈ l ->
     trim (d x) = d x /\ startsWith (d x) EXTINF = true
     /\ nameOf (d x) = nm x /\ nm x <> [] /\ goodUrl (u x)) ->
  entries ((l ≫= fun x => [d x; u x]) ++ rest)
  = ((fun x => mkPlaylistChannel (nm x) (tvgIdOf (d x)) (u x)) <$> l)
    ++ entries rest.
Proof.
  induction l as [|x l IH]; intros Hl; [done|].
  destruct (Hl x ltac:(apply list_elem_of_here)) as (Ht & Hd & Hn & Hne & Hu).
  cbn [mbind list_bind fmap list_fmap app].
  rewrite entries_block; rewrite ?Ht, ?Hn; try done.
  f_equal. apply IH. intros y Hy. apply Hl. by apply list_elem_of_further.
Qed.

Lemma corrected_lines_no_nl ms us :
  (forall m, m ∈ ms ->
     goodName (playlistName m) /\ goodUrl (matchStreamUrl m)
     /\ goodId (epgId m)) ->
  (forall c, c ∈ us -> goodName (name c) /\ goodUrl (streamUrl c)) ->
  Forall (fun l => nl ∉ l)
    (header :: (ms ≫= matchLines) ++ (us ≫= channelLines)).
Proof.
  intros Hms Hus. constructor; [apply header_no_nl|]. apply Forall_app. split.
  - apply Forall_forall. intros l (m & Hl & Hm)%list_elem_of_bind.
    destruct (Hms m Hm) as (Hn & (_ & Hu & _) & (_ & Hid)).
    unfold matchLines in Hl.
    apply elem_of_cons in Hl as [->|Hl].
    + apply lit_no_nl_extinfWithId; [done|by apply goodName_no_nl].
    + by apply list_elem_of_singleton in Hl as ->.
  - apply Forall_forall. intros l (c & Hl & Hc)%list_elem_of_bind.
    destruct (Hus c Hc) as (Hn & (_ & Hu & _)).
    unfold channelLines in Hl.
    apply elem_of_cons in Hl as [->|Hl].
    + by apply lit_no_nl_extinfPlain, goodName_no_nl.
    + by apply list_elem_of_singleton in Hl as ->.
Qed.

Lemma corrected_entries ms us :
  (forall m, m ∈ ms ->
     goodName (playlistName m) /\ goodUrl (matchStreamUrl m)
     /\ goodId (epgId m)) ->
  (forall c, c ∈ us -> goodName (name c) /\ goodUrl (streamUrl c)) ->
  parseM3U (generateCorrectedM3U ms us)
  = ((fun m => mkPlaylistChannel (playlistName m)
                 (tvgIdOf (extinfWithId (epgId m) (playlistName m)))
                 (matchStreamUrl m)) <$> ms)
    ++ ((fun c => mkPlaylistChannel (name c) (tvgIdOf (extinfPlain (name c)))
                    (streamUrl c)) <$> us).
Proof.
  intros Hms Hus.
  rewrite parseM3U_scan, generateCorrectedM3U_unlines.
  rewrite splitLines_unlines by by apply corrected_lines_no_nl.
  rewrite <- app_comm_cons, entries_skip by reflexivity.
  rewrite <- app_assoc.
  rewrite (entries_two_lines
             (fun m => extinfWithId (epgId m) (playlistName m))
             matchStreamUrl playlistName).
  - f_equal.
    rewrite (entries_two_lines (fun c => extinfPlain (name c)) streamUrl name).
    + by rewrite app_nil_r.
    + intros c Hc. destruct (Hus c Hc) as (Hn & Hu).
      destruct (extinfPlain_read _ Hn) as (? & ? & ?).
      split_and!; try done. apply Hn.
  - intros m Hm. destruct (Hms m Hm) as (Hn & Hu & (Hid & _)).
    destruct (extinfWithId_read _ _ Hn Hid) as (? & ? & ?).
    split_and!; try done. apply Hn.
Qed.

(** X16.  [parseM3U] reads the corrected playlist back: each match comes
    back with its name, its EPG id as [tvgId] and its stream URL, each
    unmatched channel with its name, an empty [tvgId] and its stream URL,
    in the order written. *)
Theorem generateCorrectedM3U_read_back (ms : list MatchResult)
    (us : list PlaylistChannel) :
  (forall m, m ∈ ms ->
     goodName (playlistName m) /\ goodUrl (matchStreamUrl m)
     /\ goodId (epgId m) /\ (dq ∉ epgId m)) ->
  (forall c, c ∈ us ->
     goodName (name c) /\ goodUrl (streamUrl c)
     /\ includes (name c) (lit "tvg-id=" ++ [dq]) = false) ->
  parseM3U (generateCorrectedM3U ms us)
  = ((fun m => mkPlaylistChannel (playlistName m) (epgId m) (matchStreamUrl m))
       <$> ms)
    ++ ((fun c => mkPlaylistChannel (name c) [] (streamUrl c)) <$> us).
Proof.
  intros Hms Hus. rewrite corrected_entries.
  - f_equal.
    + apply list_fmap_ext. intros _ m Hm%list_elem_of_lookup_2.
      destruct (Hms m Hm) as (_ & _ & _ & Hdq).
      by rewrite tvgIdOf_extinfWithId.
    + apply list_fmap_ext. intros _ c Hc%list_elem_of_lookup_2.
      destruct (Hus c Hc) as (_ & _ & Hno).
      by rewrite tvgIdOf_extinfPlain.
  - intros m Hm. destruct (Hms m Hm) as (? & ? & ? & _). done.
  - intros c Hc. destruct (Hus c Hc) as (? & ? & _). done.
Qed.

(** ** The second script on the output of the first *)

(** X17.  The parser of the second script returns the channels of the first
    script's parser, each resolved by [mapped] from its name and stream
    URL alone; the [tvg-id] attribute of the playlist is not read. *)
Theorem override_parseM3U_mapped (content : list N) :
  Override.parseM3U content
  = (fun p => Override.mapped (name p) (streamUrl p)) <$> parseM3U content.
Proof.
  rewrite override_parseM3U_filter, parseM3U_filter, <- list_fmap_compose.
  apply list_fmap_ext. intros _ i _. reflexivity.
Qed.

Lemma override_parseM3U_fmap (content : list N) :
  Override.parseM3U content
  = (fun p => Override.mapped (name p) (streamUrl p)) <$> parseM3U content.
Proof.
  rewrite override_parseM3U_filter, parseM3U_filter, <- list_fmap_compose.
  apply list_fmap_ext. intros _ i _. reflexivity.
Qed.

(** X18.  The second script, reading the corrected playlist written by the
    first, sees every channel the first script parsed, the matched ones
    first; each is resolved from its name and stream URL alone. *)
Theorem second_script_on_corrected (content : list N) (es : list EpgChannel) :
  (forall p, p ∈ parseM3U content -> startsWith (streamUrl p) EXTINF = false) ->
  (forall e, e ∈ es -> goodId (id e)) ->
  Override.parseM3U (correctedPlaylist content es)
  = (fun p => Override.mapped (name p) (streamUrl p))
      <$> (List.filter (matched es) (parseM3U content)
           ++ List.filter (fun p => negb (matched es p)) (parseM3U content)).
Proof.
  intros Hurl Hes. unfold correctedPlaylist; cbv zeta.
  rewrite override_parseM3U_fmap, matchChannels_omap.
  rewrite corrected_entries.
  - rewrite !fmap_app, <- !list_fmap_compose. f_equal.
    rewrite <- sourceChannel_matchFor, <- list_fmap_compose. done.
  - intros m (p & Hp & Hm)%list_elem_of_omap.
    unfold matchFor in Hm. pose proof (findBest_bestOf p es) as Hbest.
    destruct (findBest p es) as [[e|] s]; [|done]. injection Hm as <-.
    destruct Hbest as (_ & _ & pre & post & Hes' & _).
    destruct (parsed_good content p Hp (Hurl p Hp)) as [Hn Hu].
    split_and!; [done..|]. apply Hes. rewrite Hes'.
    apply elem_of_app. right. apply elem_of_cons. by left.
  - intros c Hc. apply list_elem_of_In, filter_In in Hc as [Hc _].
    apply list_elem_of_In in Hc. by apply parsed_good with content, Hurl.
Qed.

(** X26.  The parser of the second script gives one record for each channel
    of the first script's parser, in order, with the same name and stream
    URL and with the cleaned name; when neither the name nor the cleaned
    name is the name of a member inherited from [Object.prototype], the
    resolved id is the string that the override table holds for the cleaned
    name, else the one it holds for the name, else the empty string, and
    [hasTvgId] is true exactly when the table holds one of the two. *)
Theorem override_own_resolution (content : list N) :
  Forall2 (fun p ch =>
      Override.originalName ch = name p
      /\ Override.streamUrl ch = streamUrl p
      /\ Override.cleanName ch = Override.clean (name p)
      /\ (Override.clean (name p) ∉ Override.objectPrototypeKeys ->
          name p ∉ Override.objectPrototypeKeys ->
          Override.tvgId ch
          = Override.IdText
              match Override.manualMappings !! Override.clean (name p) with
              | Some v => v
              | None => match Override.manualMappings !! name p with
                        | Some v => v
                        | None => []
                        end
              end
          /\ (Override.hasTvgId ch = true <->
                is_Some (Override.manualMappings !! Override.clean (name p))
                \/ is_Some (Override.manualMappings !! name p))))
    (parseM3U content) (Override.parseM3U content).
Proof.
  rewrite override_parseM3U_fmap.
  apply Forall2_fmap_r, Forall_Forall2_diag, Forall_forall. intros p _.
  unfold compose, Override.mapped; cbv zeta.
  cbn [Override.originalName Override.streamUrl Override.cleanName
       Override.tvgId Override.hasTvgId].
  split_and!; [reflexivity..|]. intros Hc Hn.
  rewrite resolve_own by done. split; [reflexivity|].
  cbn [Override.truthyId].
  destruct (Override.manualMappings !! Override.clean (name p)) as [v|] eqn:Hv.
  - rewrite (manualMappings_truthy _ _ Hv). split; [by left; eexists|done].
  - destruct (Override.manualMappings !! name p) as [w|] eqn:Hw.
    + rewrite (manualMappings_truthy _ _ Hw). split; [by right; eexists|done].
    + split; [done|]. by intros [[? ?]|[? ?]].
Qed.

(** ** Reading back the clean playlist *)

Lemma generateCleanM3U_unlines (channels : list Override.MappedChannel) :
  (Override.generateCleanM3U channels).1.1
  = unlines ([header; []; lit "# CHANNELS WITH EPG"]
             ++ (List.filter Override.hasTvgId channels ≫= Override.linesWithId)
             ++ [[]; lit "# CHANNELS WITHOUT EPG"]
             ++ (take 10 (List.filter (fun ch => negb (Override.hasTvgId ch))
                            channels)
                 ≫= Override.linesPlain)).
Proof.
  unfold Override.generateCleanM3U; cbv zeta. cbn [fst].
  rewrite (fold_entries _ _ _ _ entryWithId_unlines).
  rewrite (fold_entries _ _ _ _ entryPlain_unlines).
  rewrite !unlines_app, <- !app_assoc. done.
Qed.

Lemma manualMappings_goodId (k v : list N) :
  Override.manualMappings !! k = Some v -> goodId v.
Proof.
  intros Hk. apply elem_of_list_to_map_2, list_elem_of_In in Hk.
  assert (Hall : forallb (fun kv => forallb (fun c => negb (c =? 44) && negb (c =? 10)) kv.2)
                   Override.manualMappingsEntries = true)
    by (vm_compute; reflexivity).
  rewrite forallb_forall in Hall. specialize (Hall _ Hk). cbn [snd] in Hall.
  rewrite forallb_forall in Hall.
  split; intros Hc%list_elem_of_In%Hall; vm_compute in Hc; discriminate.
Qed.

(** The text of an inherited member has no comma and no line feed. *)
Lemma inherited_goodId (k : list N) :
  k ∈ Override.objectPrototypeKeys ->
  goodId (Override.idText (Override.IdInherited k)).
Proof.
  unfold Override.objectPrototypeKeys. intros Hk.
  repeat (apply elem_of_cons in Hk as [->|Hk]; [split; not_in_literal|]).
  by apply elem_of_nil in Hk.
Qed.

Lemma member_goodId (k : list N) (v : Override.TvgId) :
  Override.member Override.manualMappings k = Some v ->
  goodId (Override.idText v).
Proof.
  unfold Override.member.
  destruct (Override.manualMappings !! k) as [w|] eqn:Hk.
  - intros [= <-]. apply (manualMappings_goodId _ _ Hk).
  - case_bool_decide as Hin; [|discriminate].
    intros [= <-]. by apply inherited_goodId.
Qed.

Lemma resolve_goodId (cleanName name : list N) :
  goodId (Override.idText
            (Override.resolve Override.manualMappings cleanName name)).
Proof.
  rewrite resolve_manualMappings.
  destruct (Override.member Override.manualMappings cleanName) as [v|] eqn:Hc;
    [by eapply member_goodId|].
  destruct (Override.member Override.manualMappings name) as [v|] eqn:Hn;
    [by eapply member_goodId|].
  split; apply not_elem_of_nil.
Qed.

(** X19.  The second script reads its own clean playlist back as the
    resolved channels followed by the first ten unresolved ones, each
    record unchanged. *)
Theorem generateCleanM3U_read_back (content : list N) :
  (forall c, c ∈ Override.parseM3U content ->
     startsWith (Override.streamUrl c) EXTINF = false) ->
  Override.parseM3U
    (Override.generateCleanM3U (Override.parseM3U content)).1.1
  = List.filter Override.hasTvgId (Override.parseM3U content)
    ++ take 10 (List.filter (fun ch => negb (Override.hasTvgId ch))
                  (Override.parseM3U content)).
Proof.
  intros Hurl.
  set (chs := Override.parseM3U content) in *.
  set (good := List.filter Override.hasTvgId chs).
  set (unknown := List.filter (fun ch => negb (Override.hasTvgId ch)) chs).
  assert (Hchs : forall c, c ∈ chs ->
            c = Override.mapped (Override.originalName c) (Override.streamUrl c)
            /\ goodName (Override.originalName c)
            /\ goodUrl (Override.streamUrl c)
            /\ goodId (Override.idText (Override.tvgId c))).
  { intros c Hc. pose proof (Hurl c Hc) as Hu.
    unfold chs in Hc. rewrite override_parseM3U_fmap in Hc.
    apply list_elem_of_fmap in Hc as (p & -> & Hp).
    cbn [Override.mapped Override.originalName Override.streamUrl
         Override.tvgId] in *.
    destruct (parsed_good content p Hp Hu) as [Hn Hu'].
    split_and!; [done..|apply resolve_goodId]. }
  assert (Hgood : forall c, c ∈ good -> c ∈ chs).
  { intros c Hc. apply list_elem_of_In, filter_In in Hc as [Hc _].
    by apply list_elem_of_In. }
  assert (Hunknown : forall c, c ∈ take 10 unknown -> c ∈ chs).
  { intros c Hc.
    assert (Hc' : c ∈ unknown) by (eapply elem_of_sublist; [done|apply sublist_take]).
    apply list_elem_of_In, filter_In in Hc' as [Hc' _].
    by apply list_elem_of_In. }
  rewrite override_parseM3U_fmap, parseM3U_scan, generateCleanM3U_unlines.
  fold chs good unknown.
  rewrite splitLines_unlines.
  - rewrite <- !app_assoc. cbn [app].
    rewrite !entries_skip by reflexivity.
    rewrite (entries_two_lines
               (fun c => extinfWithId (Override.idText (Override.tvgId c))
                           (Override.originalName c))
               Override.streamUrl Override.originalName).
    + rewrite !entries_skip by reflexivity.
      rewrite (entries_two_lines
                 (fun c => extinfPlain (Override.originalName c))
                 Override.streamUrl Override.originalName).
      * rewrite app_nil_r, fmap_app, <- !list_fmap_compose. f_equal.
        -- rewrite <- (list_fmap_id good) at 2. apply list_fmap_ext.
           intros _ c Hc%list_elem_of_lookup_2.
           symmetry. apply (Hchs c (Hgood c Hc)).
        -- rewrite <- (list_fmap_id (take 10 unknown)) at 2. apply list_fmap_ext.
           intros _ c Hc%list_elem_of_lookup_2.
           symmetry. apply (Hchs c (Hunknown c Hc)).
      * intros c Hc. destruct (Hchs c (Hunknown c Hc)) as (_ & Hn & Hu & _).
        destruct (extinfPlain_read _ Hn) as (? & ? & ?).
        split_and!; try done. apply Hn.
    + intros c Hc. destruct (Hchs c (Hgood c Hc)) as (_ & Hn & Hu & Hid & _).
      destruct (extinfWithId_read _ _ Hn Hid) as (? & ? & ?).
      split_and!; try done. apply Hn.
  - repeat (apply Forall_cons; split; [not_in_literal|]).
    apply Forall_app. split.
    + apply Forall_forall. intros l (c & Hl & Hc)%list_elem_of_bind.
      destruct (Hchs c (Hgood c Hc)) as (_ & Hn & (_ & Hu & _) & _ & Hid).
      unfold Override.linesWithId in Hl.
      apply elem_of_cons in Hl as [->|Hl].
      * apply lit_no_nl_extinfWithId; [done|by apply goodName_no_nl].
      * by apply list_elem_of_singleton in Hl as ->.
    + repeat (apply Forall_cons; split; [not_in_literal|]).
      apply Forall_forall. intros l (c & Hl & Hc)%list_elem_of_bind.
      destruct (Hchs c (Hunknown c Hc)) as (_ & Hn & (_ & Hu & _) & _).
      unfold Override.linesPlain in Hl.
      apply elem_of_cons in Hl as [->|Hl].
      * by apply lit_no_nl_extinfPlain, goodName_no_nl.
      * by apply list_elem_of_singleton in Hl as ->.
Qed.

(** ** Cleaning: fixed points *)

Lemma indexOf_Some (c : N) (s : list N) (n : nat) :
  Override.indexOf c s = Some n -> c ∈ s.
Proof.
  revert n. induction s as [|x s IH]; intros n; [done|]. cbn [Override.indexOf].
  destruct (N.eqb_spec x c) as [->|_]; [intros _; apply list_elem_of_here|].
  destruct (Override.indexOf c s) as [m|]; [|done].
  intros _. apply list_elem_of_further. by eapply IH.
Qed.

Lemma noPair_tail (o c x : N) (s : list N) :
  Override.noPair o c (x :: s) -> Override.noPair o c s.
Proof. intros H pre post ->. by apply (H (x :: pre) post). Qed.

Lemma matchAnnot_noPair (o c : N) (s : list N) :
  Override.noPair o c s -> Override.matchAnnot o c s = None.
Proof.
  intros Hs. unfold Override.matchAnnot.
  destruct (dropWhile_split isSpace s) as [k Hk].
  destruct (dropWhile isSpace s) as [|y rest]; [done|].
  destruct (N.eqb_spec y o) as [->|_]; [|done].
  destruct (Override.indexOf c rest) as [n|] eqn:Hn; [|done].
  exfalso. apply (Hs k rest Hk). by eapply indexOf_Some.
Qed.

(** A text without enclosed part is left as it is. *)
Lemma replaceFrom_noPair_id (o c : N) (s : list N) :
  Override.noPair o c s -> Override.replaceFrom o c 0 s = s.
Proof.
  induction s as [|x s IH]; intros Hs; [done|].
  cbn [Override.replaceFrom]. rewrite (matchAnnot_noPair _ _ _ Hs).
  f_equal. by eapply IH, noPair_tail.
Qed.

Lemma noPair_absent (o c : N) (s : list N) : o ∉ s -> Override.noPair o c s.
Proof.
  intros Ho pre post ->. exfalso. apply Ho.
  apply elem_of_app. right. apply list_elem_of_here.
Qed.

Lemma clean_fixed (s : list N) :
  Override.noPair 40 41 s -> Override.noPair 91 93 s -> trim s = s ->
  Override.clean s = s.
Proof.
  intros H1 H2 H3. unfold Override.clean, Override.removeAnnot.
  by rewrite (replaceFrom_noPair_id _ _ _ H1), (replaceFrom_noPair_id _ _ _ H2).
Qed.

(** X20.  Cleaning is idempotent, and the names it leaves unchanged are
    those without text enclosed in parentheses or brackets and without
    white space at their ends. *)
Theorem clean_idempotent (s : list N) :
  Override.clean (Override.clean s) = Override.clean s
  /\ (Override.clean s = s <->
      Override.noPair 40 41 s /\ Override.noPair 91 93 s /\ trim s = s).
Proof.
  split.
  - destruct (clean_noPair s) as [H1 H2].
    apply clean_fixed; [done..|]. unfold Override.clean. apply trim_idem.
  - split.
    + intros Hs. destruct (clean_noPair s) as [H1 H2]. rewrite Hs in H1, H2.
      split_and!; [done..|]. rewrite <- Hs at 1. unfold Override.clean.
      rewrite trim_idem. apply Hs.
    + intros (H1 & H2 & H3). by apply clean_fixed.
Qed.

(** ** Cleaning: annotations after a name *)

Lemma dropWhile_app_nonspace (t rest : list N) (y : N) :
  y ∈ t -> isSpace y = false ->
  exists z t', dropWhile isSpace (t ++ rest) = z :: t' /\ z ∈ t.
Proof.
  induction t as [|x t IH]; intros Hy Hsp; [by apply elem_of_nil in Hy|].
  cbn [app dropWhile]. destruct (isSpace x) eqn:Hx.
  - apply elem_of_cons in Hy as [->|Hy]; [congruence|].
    destruct (IH Hy Hsp) as (z & t' & Hd & Hz).
    exists z, t'. split; [done|by apply list_elem_of_further].
  - exists x, (t ++ rest). split; [done|apply list_elem_of_here].
Qed.

(** A text without opening character that ends with a code unit other
    than white space is kept, whatever follows. *)
Lemma replaceFrom_keep (o c : N) (s rest : list N) (y : N) :
  o ∉ s -> last s = Some y -> isSpace y = false ->
  Override.replaceFrom o c 0 (s ++ rest)
  = s ++ Override.replaceFrom o c 0 rest.
Proof.
  induction s as [|x s IH]; intros Ho Hlast Hy; [done|].
  assert (Hm : Override.matchAnnot o c ((x :: s) ++ rest) = None).
  { unfold Override.matchAnnot.
    destruct (dropWhile_app_nonspace (x :: s) rest y) as (z & t' & -> & Hz);
      [by apply last_Some_elem_of|done|].
    destruct (N.eqb_spec z o) as [->|_]; [done|done]. }
  cbn [app Override.replaceFrom] in *. rewrite Hm. f_equal.
  destruct s as [|x' s]; [done|].
  apply IH; [|done..]. by apply not_elem_of_cons in Ho as [_ ?].
Qed.

Lemma replaceFrom_skip (o c : N) (pre rest : list N) :
  Override.replaceFrom o c (length pre) (pre ++ rest)
  = Override.replaceFrom o c 0 rest.
Proof. induction pre as [|x pre IH]; [by destruct rest|]. apply IH. Qed.

Lemma dropWhile_spaces (ws rest : list N) :
  Forall (fun x => isSpace x = true) ws ->
  dropWhile isSpace (ws ++ rest) = dropWhile isSpace rest.
Proof. induction 1 as [|x ws Hx _ IH]; [done|]. cbn [app dropWhile]. by rewrite Hx. Qed.

Lemma indexOf_here (c : N) (x rest : list N) :
  c ∉ x -> Override.indexOf c (x ++ c :: rest) = Some (length x).
Proof.
  induction x as [|y x IH]; intros Hc; cbn [app Override.indexOf length].
  - by rewrite N.eqb_refl.
  - apply not_elem_of_cons in Hc as [Hy Hc].
    destruct (N.eqb_spec y c) as [->|_]; [done|]. by rewrite IH.
Qed.

(** An annotation, with the white space before it, is deleted. *)
Lemma replaceFrom_annot (o c : N) (ws x rest : list N) :
  isSpace o = false -> Forall (fun x => isSpace x = true) ws -> c ∉ x ->
  Override.replaceFrom o c 0 (ws ++ o :: x ++ c :: rest)
  = Override.replaceFrom o c 0 rest.
Proof.
  intros Ho Hws Hc.
  assert (Hm : Override.matchAnnot o c (ws ++ o :: x ++ c :: rest)
               = Some (length (ws ++ o :: x ++ [c]))).
  { unfold Override.matchAnnot. rewrite dropWhile_spaces by done.
    cbn [dropWhile]. rewrite Ho, N.eqb_refl, indexOf_here by done.
    cbn [fmap option_fmap option_map]. f_equal.
    rewrite !length_app. cbn [length]. rewrite !length_app. cbn [length]. lia. }
  replace (ws ++ o :: x ++ c :: rest) with ((ws ++ o :: x ++ [c]) ++ rest) in *
    by (rewrite <- !app_assoc; cbn [app]; by rewrite <- app_assoc).
  destruct (ws ++ o :: x ++ [c]) as [|z pre] eqn:Hpre.
  { destruct ws; done. }
  cbn [app Override.replaceFrom]. cbn [app] in Hm. rewrite Hm.
  cbn [length]. rewrite Nat.sub_succ, Nat.sub_0_r. apply replaceFrom_skip.
Qed.

Lemma spaces_no (o : N) (ws : list N) :
  isSpace o = false -> Forall (fun x => isSpace x = true) ws -> o ∉ ws.
Proof.
  intros Ho Hws Hin. rewrite Forall_forall in Hws.
  apply Hws in Hin. congruence.
Qed.

Lemma clean_annotated (k ws1 x ws2 y : list N) :
  plainName k ->
  Forall (fun c => isSpace c = true) ws1 ->
  Forall (fun c => isSpace c = true) ws2 ->
  41 ∉ x -> 40 ∉ y -> 93 ∉ y ->
  Override.clean (k ++ ws1 ++ 40 :: x ++ [41]) = k
  /\ Override.clean (k ++ ws2 ++ 91 :: y ++ [93]) = k
  /\ Override.clean (k ++ ws1 ++ 40 :: x ++ 41 :: ws2 ++ 91 :: y ++ [93]) = k.
Proof.
  intros (Hk & Hk40 & Hk91) Hws1 Hws2 Hx Hy40 Hy93.
  destruct (trimmed_ends k Hk) as [_ (z & Hlast & Hz)].
  assert (Hbr : Override.replaceFrom 91 93 0 (k ++ ws2 ++ 91 :: y ++ [93]) = k).
  { rewrite (replaceFrom_keep 91 93 k _ z) by done.
    rewrite replaceFrom_annot by done. apply app_nil_r. }
  assert (Hno40 : 40 ∉ ws2 ++ 91 :: y ++ [93]).
  { rewrite not_elem_of_app, not_elem_of_cons, not_elem_of_app.
    split_and!; [by apply spaces_no|done|done|].
    intros H%list_elem_of_singleton. discriminate. }
  unfold Override.clean, Override.removeAnnot. split_and!.
  - rewrite (replaceFrom_keep 40 41 k _ z) by done.
    rewrite replaceFrom_annot by done. cbn [Override.replaceFrom].
    rewrite app_nil_r, (replaceFrom_noPair_id 91 93 k) by by apply noPair_absent.
    apply Hk.
  - rewrite (replaceFrom_noPair_id 40 41).
    + rewrite Hbr. apply Hk.
    + apply noPair_absent. by rewrite not_elem_of_app.
  - rewrite (replaceFrom_keep 40 41 k _ z) by done.
    rewrite replaceFrom_annot by done.
    rewrite (replaceFrom_noPair_id 40 41 (ws2 ++ _)) by by apply noPair_absent.
    rewrite Hbr. apply Hk.
Qed.

(** X21.  A parenthesised annotation, a bracketed annotation, or one of
    each, with any white space before them, is stripped from the end of a
    name: what is left is the name. *)
Theorem clean_strips_annotations (k ws1 x ws2 y : list N) :
  plainName k ->
  Forall (fun c => isSpace c = true) ws1 ->
  Forall (fun c => isSpace c = true) ws2 ->
  41 ∉ x -> 40 ∉ y -> 93 ∉ y ->
  Override.clean (k ++ ws1 ++ 40 :: x ++ [41]) = k
  /\ Override.clean (k ++ ws2 ++ 91 :: y ++ [93]) = k
  /\ Override.clean (k ++ ws1 ++ 40 :: x ++ 41 :: ws2 ++ 91 :: y ++ [93]) = k.
Proof. intros Hk Hws1 Hws2 Hx Hy40 Hy93. by apply clean_annotated. Qed.

(** ** The override table *)

Lemma trimmed_compute (k : list N) :
  truthy k = true -> strEq (trim k) k = true -> trimmed k.
Proof.
  intros H1 H2. split; [by apply truthy_true|by apply strEq_true].
Qed.

Lemma manualMappings_plain (k v : list N) :
  Override.manualMappings !! k = Some v -> plainName k.
Proof.
  intros Hk. apply elem_of_list_to_map_2, list_elem_of_In in Hk.
  assert (Hall : forallb (fun kv =>
                   truthy kv.1 && strEq (trim kv.1) kv.1
                   && forallb (fun c => negb (c =? 40) && negb (c =? 91)) kv.1)
                   Override.manualMappingsEntries = true)
    by (vm_compute; reflexivity).
  rewrite forallb_forall in Hall. specialize (Hall _ Hk). cbn [fst] in Hall.
  apply andb_true_iff in Hall as [[H1 H2]%andb_true_iff H3].
  rewrite forallb_forall in H3.
  split; [by apply trimmed_compute|].
  split; intros Hc%list_elem_of_In%H3; vm_compute in Hc; discriminate.
Qed.

(** X22.  A name of the override table followed by a parenthesised
    annotation, a bracketed annotation, or one of each, resolves to the
    table's identifier for that name. *)
Theorem annotated_key_resolves (k v ws1 x ws2 y url : list N) :
  Override.manualMappings !! k = Some v ->
  Forall (fun c => isSpace c = true) ws1 ->
  Forall (fun c => isSpace c = true) ws2 ->
  41 ∉ x -> 40 ∉ y -> 93 ∉ y ->
  forall name,
    name = k ++ ws1 ++ 40 :: x ++ [41]
    \/ name = k ++ ws2 ++ 91 :: y ++ [93]
    \/ name = k ++ ws1 ++ 40 :: x ++ 41 :: ws2 ++ 91 :: y ++ [93] ->
    Override.cleanName (Override.mapped name url) = k
    /\ Override.tvgId (Override.mapped name url) = Override.IdText v
    /\ Override.hasTvgId (Override.mapped name url) = true.
Proof.
  intros Hk Hws1 Hws2 Hx Hy40 Hy93 name Hname.
  destruct (clean_annotated k ws1 x ws2 y
              (manualMappings_plain _ _ Hk) Hws1 Hws2 Hx Hy40 Hy93)
    as (H1 & H2 & H3).
  assert (Hclean : Override.clean name = k).
  { by destruct Hname as [-> | [-> | -> ] ]. }
  unfold Override.mapped; cbv zeta.
  cbn [Override.cleanName Override.tvgId Override.hasTvgId].
  rewrite Hclean, resolve_manualMappings, (member_is_own _ _ _ Hk).
  split_and!; [done..|]. by eapply manualMappings_truthy.
Qed.

(** ** parseM3U sees the lines through trim *)

Lemma entries_trim (L L' : list (list N)) :
  trim <$> L = trim <$> L' -> entries L = entries L'.
Proof.
  revert L'. induction L as [|l L IH]; intros [|l' L'] H; try done.
  injection H as Hl HL. cbn [entries]. rewrite Hl, (IH L' HL).
  destruct L as [|n L], L' as [|n' L']; try done.
  injection HL as -> _. done.
Qed.

(** X23.  [parseM3U] depends on the lines of the playlist only through
    their trimmed text: two playlists whose lines agree after trimming
    give the same channels. *)
Theorem parseM3U_trimmed_lines (c1 c2 : list N) :
  trim <$> splitLines c1 = trim <$> splitLines c2 ->
  parseM3U c1 = parseM3U c2.
Proof. intros H. rewrite !parseM3U_scan. by apply entries_trim. Qed.

Lemma dropWhile_all (p : N -> bool) (l : list N) :
  Forall (fun x => p x = true) l -> dropWhile p l = [].
Proof. induction 1 as [|x l Hx _ IH]; [done|]. simpl. by rewrite Hx. Qed.

Lemma dropWhile_app_r (p : N -> bool) (l r : list N) :
  dropWhile p l <> [] -> dropWhile p (l ++ r) = dropWhile p l ++ r.
Proof.
  induction l as [|x l IH]; [done|]. cbn [app dropWhile].
  destruct (p x); [apply IH|done].
Qed.

Lemma dropWhile_nil_all (p : N -> bool) (l : list N) :
  dropWhile p l = [] -> Forall (fun x => p x = true) l.
Proof.
  induction l as [|x l IH]; [constructor|]. cbn [dropWhile].
  destruct (p x) eqn:Hx; [|done]. intros H. constructor; [done|by apply IH].
Qed.

(** White space added at the end of a line is not seen. *)
Lemma trim_app_spaces (l ws : list N) :
  Forall (fun x => isSpace x = true) ws -> trim (l ++ ws) = trim l.
Proof.
  intros Hws. unfold trim, trimEnd, trimStart.
  destruct (dropWhile isSpace l) as [|x t] eqn:Hl.
  - apply dropWhile_nil_all in Hl.
    rewrite (dropWhile_all isSpace (l ++ ws)); [done|].
    by apply Forall_app.
  - rewrite dropWhile_app_r by (rewrite Hl; done). rewrite Hl.
    rewrite rev_app_distr, dropWhile_spaces; [done|].
    apply Forall_forall. intros c Hc%list_elem_of_In%in_rev%list_elem_of_In.
    rewrite Forall_forall in Hws. by apply Hws.
Qed.

(** X24.  Carriage returns before the line feeds make no difference: a
    playlist with CR LF line ends gives the channels of the same lines
    with LF line ends. *)
Theorem parseM3U_crlf (ls : list (list N)) :
  Forall (fun l => nl ∉ l) ls ->
  parseM3U (unlines ((fun l => l ++ [13]) <$> ls)) = parseM3U (unlines ls).
Proof.
  intros Hls. rewrite !parseM3U_scan. apply entries_trim.
  rewrite !splitLines_unlines; [|done|].
  - rewrite !fmap_app, <- list_fmap_compose. f_equal.
    apply list_fmap_ext. intros _ l _. cbn.
    apply trim_app_spaces. by repeat constructor.
  - apply Forall_fmap. eapply Forall_impl; [done|].
    intros l Hl. cbn. rewrite not_elem_of_app. split; [done|].
    intros H%list_elem_of_singleton. discriminate.
Qed.

(** ** A playlist without directive *)

Lemma splitLines_head_prefix (s : list N) :
  exists l ls, splitLines s = l :: ls /\ exists post, s = l ++ post.
Proof.
  induction s as [|c s (l & ls & Hs & post & Hpost)]; cbn [splitLines].
  - exists [], []. split; [done|by exists []].
  - destruct (N.eqb_spec c 10) as [->|_].
    + exists [], (splitLines s). split; [done|by exists (10 :: s)].
    + rewrite Hs. exists (c :: l), ls. split; [done|].
      exists post. by rewrite Hpost at 1.
Qed.

(** Every line is a part of the text. *)
Lemma splitLines_substring (s l : list N) :
  l ∈ splitLines s -> substringOf l s.
Proof.
  revert l. induction s as [|c s IH]; intros l; cbn [splitLines].
  - intros ->%list_elem_of_singleton. by exists [], [].
  - destruct (N.eqb_spec c 10) as [->|_].
    + intros [->|Hl]%elem_of_cons; [by exists [], (10 :: s)|].
      destruct (IH l Hl) as (pre & post & ->). by exists (10 :: pre), post.
    + destruct (splitLines_head_prefix s) as (l0 & ls & Hs & post & Hpost).
      rewrite Hs. intros [->|Hl]%elem_of_cons.
      * exists [], post. cbn [app]. by rewrite Hpost at 1.
      * destruct (IH l) as (pre & post' & ->).
        { rewrite Hs. by apply list_elem_of_further. }
        by exists (c :: pre), post'.
Qed.

Lemma substringOf_trans (a b c : list N) :
  substringOf a b -> substringOf b c -> substringOf a c.
Proof.
  intros (p1 & q1 & ->) (p2 & q2 & ->).
  exists (p2 ++ p1), (q1 ++ q2). by rewrite <- !app_assoc.
Qed.

Lemma entries_no_directive (L : list (list N)) :
  Forall (fun l => startsWith (trim l) EXTINF = false) L -> entries L = [].
Proof.
  induction 1 as [|l L Hl _ IH]; [done|]. by rewrite entries_skip.
Qed.

(** X25.  A text in which [#EXTINF:] does not occur gives no channel. *)
Theorem parseM3U_no_directive (content : list N) :
  includes content EXTINF = false -> parseM3U content = [].
Proof.
  intros Hno. rewrite parseM3U_scan. apply entries_no_directive.
  apply Forall_forall. intros l Hl.
  destruct (startsWith (trim l) EXTINF) eqn:Hd; [|done].
  exfalso. apply not_true_iff_false in Hno. apply Hno.
  apply includes_substringOf.
  apply substringOf_trans with l; [|by apply splitLines_substring].
  apply substringOf_trans with (trim l).
  - apply startsWith_spec in Hd as [rest Hrest]. exists [], rest. by cbn.
  - destruct (trim_split l) as (k1 & k2 & Hk). by exists k1, k2.
Qed.

(** ** The further properties on sample inputs *)

(** X1 on [ab] and [b]: one deletion is enough. *)
Lemma levenshteinDistance_least_edits_ab :
  (levenshteinDistance (lit "b") (lit "ab") <= 1)%nat.
Proof.
  apply (levenshteinDistance_least_edits (lit "b") (lit "ab")).
  apply edits_delete, edits_keep, edits_nil.
Defined.

(** X6 on the upper-case letter T. *)
Lemma normalize_insensitive_T :
  between 65 90 84 = true
  /\ normalize ([] ++ 84 :: lit "F1") = normalize ([] ++ (84 + 32) :: lit "F1").
Proof.
  split; [reflexivity|].
  apply (normalize_insensitive [] (lit "F1") 84). reflexivity.
Defined.

(** X8 on a name made of stars. *)
Lemma fuzzyMatch_empty_form_score_stars :
  normalize (lit "***") = []
  /\ fuzzyMatch (lit "TF1") (lit "***") = (8 # 10)%Q.
Proof.
  split; [reflexivity|].
  apply (fuzzyMatch_empty_form_score (lit "TF1") (lit "***")).
  - reflexivity.
  - vm_compute. discriminate.
Defined.

(** X9 on the boundary example. *)
Lemma fuzzyMatch_accept_edit_arte :
  includes (normalize (lit "Arte HD")) (normalize (lit "ArteFR")) = false
  /\ includes (normalize (lit "ArteFR")) (normalize (lit "Arte HD")) = false
  /\ (3 * length (longerOf (normalize (lit "Arte HD")) (normalize (lit "ArteFR")))
      < 5 * length (shorterOf (normalize (lit "Arte HD"))
                              (normalize (lit "ArteFR"))))%nat.
Proof.
  split_and!; [reflexivity..|].
  apply (fuzzyMatch_accept_edit (lit "Arte HD") (lit "ArteFR"));
    reflexivity.
Defined.

(** X12 on the scenario with a blank EPG name added. *)
Lemma matchChannels_blank_epg_name_x :
  blankEpg ∈ [tf1Epg; blankEpg] /\ normalize (displayName blankEpg) = []
  /\ (matchChannels [tf1; unknownX] [tf1Epg; blankEpg]).2 = [].
Proof.
  assert (H1 : blankEpg ∈ [tf1Epg; blankEpg])
    by apply list_elem_of_further, list_elem_of_here.
  split_and!; [done|reflexivity|].
  by apply (matchChannels_blank_epg_name _ _ blankEpg).
Defined.

(** X13 on [TF1], with another EPG channel before it. *)
Lemma matchChannels_exact_name_tf1 :
  normalize (name tf1) = normalize (displayName tf1Epg)
  /\ matchFor ([arteFR] ++ tf1Epg :: [blankEpg]) tf1 = Some (toMatch tf1 tf1Epg 1).
Proof.
  split; [reflexivity|].
  apply (matchChannels_exact_name tf1 [arteFR] [blankEpg] tf1Epg).
  - reflexivity.
  - intros e He%list_elem_of_singleton. subst e. vm_compute. discriminate.
Defined.

(** X14 on [TF1], with another EPG channel after it. *)
Lemma findBest_more_epg_tf1 :
  findBest tf1 [tf1Epg] = (Some tf1Epg, 1%Q)
  /\ exists e' s', findBest tf1 ([tf1Epg] ++ [arteFR]) = (Some e', s')
                   /\ (1 <= s')%Q.
Proof.
  split; [reflexivity|].
  apply (findBest_more_epg tf1 [tf1Epg] [arteFR] tf1Epg 1). reflexivity.
Defined.

(** X15 on the first channel of the scenario. *)
Lemma parseM3U_wellformed_tf1 :
  tf1 ∈ parseM3U scenario
  /\ goodName (name tf1) /\ trimmed (streamUrl tf1)
  /\ (nl ∉ streamUrl tf1) /\ (dq ∉ tvgId tf1).
Proof.
  assert (H : tf1 ∈ parseM3U scenario) by (vm_compute; apply list_elem_of_here).
  split; [done|]. by apply (parseM3U_wellformed scenario tf1).
Defined.

(** The fields of the scenario can be written and read back. *)
Lemma good_tf1 : goodName (lit "TF1") /\ goodUrl (lit "http://example/tf1")
  /\ goodId (lit "TF1.fr") /\ (dq ∉ lit "TF1.fr").
Proof.
  split_and!.
  - split; [split; [discriminate|reflexivity]|reflexivity].
  - split_and!; [split; [discriminate|reflexivity]|not_in_literal|reflexivity].
  - split; not_in_literal.
  - not_in_literal.
Defined.

Lemma good_unknownX :
  goodName (lit "Unknown Channel X") /\ goodUrl (lit "http://example/x")
  /\ includes (lit "Unknown Channel X") (lit "tvg-id=" ++ [dq]) = false.
Proof.
  split_and!.
  - split; [split; [discriminate|reflexivity]|reflexivity].
  - split_and!; [split; [discriminate|reflexivity]|not_in_literal|reflexivity].
  - reflexivity.
Defined.

(** X16 on the result of the scenario. *)
Lemma generateCorrectedM3U_read_back_scenario :
  parseM3U (generateCorrectedM3U [toMatch tf1 tf1Epg 1] [unknownX])
  = [mkPlaylistChannel (lit "TF1") (lit "TF1.fr") (lit "http://example/tf1");
     mkPlaylistChannel (lit "Unknown Channel X") [] (lit "http://example/x")].
Proof.
  apply (generateCorrectedM3U_read_back [toMatch tf1 tf1Epg 1] [unknownX]).
  - intros m Hm%list_elem_of_singleton. subst m. apply good_tf1.
  - intros c Hc%list_elem_of_singleton. subst c. apply good_unknownX.
Defined.

(** X18 on the scenario. *)
Lemma second_script_on_corrected_scenario :
  Override.parseM3U (correctedPlaylist scenario [tf1Epg])
  = (fun p => Override.mapped (name p) (streamUrl p))
      <$> (List.filter (matched [tf1Epg]) (parseM3U scenario)
           ++ List.filter (fun p => negb (matched [tf1Epg] p)) (parseM3U scenario)).
Proof.
  apply (second_script_on_corrected scenario [tf1Epg]).
  - assert (Hps : parseM3U scenario = [tf1; unknownX]) by (vm_compute; reflexivity).
    rewrite Hps. intros p [->|Hp%list_elem_of_singleton]%elem_of_cons;
      [reflexivity|subst p; reflexivity].
  - intros e He%list_elem_of_singleton. subst e. apply good_tf1.
Defined.

(** X19 on the annotated entry. *)
Lemma generateCleanM3U_read_back_tf1 :
  Override.parseM3U
    (Override.generateCleanM3U (Override.parseM3U tf1Annotated)).1.1
  = List.filter Override.hasTvgId (Override.parseM3U tf1Annotated)
    ++ take 10 (List.filter (fun ch => negb (Override.hasTvgId ch))
                  (Override.parseM3U tf1Annotated)).
Proof.
  apply (generateCleanM3U_read_back tf1Annotated).
  assert (Hps : Override.parseM3U tf1Annotated
                = [Override.mapped (lit "TF1 HD (1080p) [Geo-blocked]")
                     (lit "http://x")]) by (vm_compute; reflexivity).
  rewrite Hps. intros c Hc%list_elem_of_singleton. subst c. reflexivity.
Defined.

(** [TF1 HD] is a plain name. *)
Lemma plain_tf1hd : plainName (lit "TF1 HD").
Proof.
  split_and!; [split; [discriminate|reflexivity]|not_in_literal..].
Defined.

(** X21 on [TF1 HD] with a tag of each kind. *)
Lemma clean_strips_annotations_tf1 :
  plainName (lit "TF1 HD")
  /\ Override.clean (lit "TF1 HD" ++ [32] ++ 40 :: lit "1080p" ++ 41 :: [32]
                     ++ 91 :: lit "Geo-blocked" ++ [93]) = lit "TF1 HD".
Proof.
  split; [apply plain_tf1hd|].
  apply (clean_strips_annotations (lit "TF1 HD") [32] (lit "1080p") [32]
           (lit "Geo-blocked")).
  - apply plain_tf1hd.
  - by repeat constructor.
  - by repeat constructor.
  - not_in_literal.
  - not_in_literal.
  - not_in_literal.
Defined.

(** X22 on [TF1 HD (1080p)]. *)
Lemma annotated_key_resolves_tf1 :
  Override.manualMappings !! lit "TF1 HD" = Some (lit "TF1.fr")
  /\ Override.tvgId (Override.mapped (lit "TF1 HD" ++ [32] ++ 40 :: lit "1080p" ++ [41])
                       (lit "http://x")) = Override.IdText (lit "TF1.fr").
Proof.
  assert (Hk : Override.manualMappings !! lit "TF1 HD" = Some (lit "TF1.fr"))
    by (vm_compute; reflexivity).
  split; [done|].
  apply (annotated_key_resolves (lit "TF1 HD") (lit "TF1.fr") [32] (lit "1080p")
           [] [] (lit "http://x") Hk).
  - by repeat constructor.
  - constructor.
  - not_in_literal.
  - apply not_elem_of_nil.
  - apply not_elem_of_nil.
  - by left.
Defined.

(** X26 on the annotated entry: the table holds [TF1.fr] for the cleaned
    name [TF1 HD]. *)
Lemma override_own_resolution_tf1 :
  exists ch, Override.parseM3U tf1Annotated = [ch]
    /\ Override.cleanName ch = lit "TF1 HD"
    /\ Override.tvgId ch = Override.IdText (lit "TF1.fr")
    /\ Override.hasTvgId ch = true.
Proof.
  pose proof (override_own_resolution tf1Annotated) as H.
  assert (Hp : parseM3U tf1Annotated
               = [mkPlaylistChannel (lit "TF1 HD (1080p) [Geo-blocked]") []
                    (lit "http://x")]) by (vm_compute; reflexivity).
  rewrite Hp in H.
  destruct (Override.parseM3U tf1Annotated) as [|ch [|ch' l]] eqn:Hch.
  - apply Forall2_length in H. discriminate.
  - exists ch. apply Forall2_cons_1 in H as [(_ & _ & Hclean & Hres) _].
    cbn [name] in Hclean, Hres.
    destruct Hres as [Hid Hhas].
    + vm_compute. intros Hin.
      repeat (apply elem_of_cons in Hin as [Hin|Hin]; [discriminate|]).
      by apply elem_of_nil in Hin.
    + vm_compute. intros Hin.
      repeat (apply elem_of_cons in Hin as [Hin|Hin]; [discriminate|]).
      by apply elem_of_nil in Hin.
    + split_and!; [reflexivity|rewrite Hclean; vm_compute; reflexivity| |].
      * rewrite Hid. vm_compute. reflexivity.
      * apply Hhas. left. vm_compute. by eexists.
  - apply Forall2_length in H. discriminate.
Defined.

(** X23 on an entry with white space around its lines. *)
Lemma parseM3U_trimmed_lines_padded :
  trim <$> splitLines paddedEntry = trim <$> splitLines plainEntry
  /\ parseM3U paddedEntry = parseM3U plainEntry.
Proof.
  assert (H : trim <$> splitLines paddedEntry = trim <$> splitLines plainEntry)
    by (vm_compute; reflexivity).
  split; [done|]. by apply parseM3U_trimmed_lines.
Defined.

(** X24 on one entry. *)
Lemma parseM3U_crlf_entry :
  parseM3U (unlines ((fun l => l ++ [13]) <$> [lit "#EXTINF:-1,A"; lit "http://a"]))
  = parseM3U (unlines [lit "#EXTINF:-1,A"; lit "http://a"]).
Proof.
  apply (parseM3U_crlf [lit "#EXTINF:-1,A"; lit "http://a"]).
  repeat (apply Forall_cons; split; [not_in_literal|]). constructor.
Defined.

(** X25 on a playlist that is only its header. *)
Lemma parseM3U_no_directive_header :
  includes (lit "#EXTM3U") EXTINF = false /\ parseM3U (lit "#EXTM3U") = [].
Proof.
  split; [reflexivity|]. by apply parseM3U_no_directive.
Defined.
